(** * Audio-reactive kaleidoscope visualizer: the reactive core of [src/App.jsx]

    A shallow embedding of the numeric code of [App.jsx]:
    - [useAudioAnalyzer.updateAudioData] (loudness boost),
    - the per-frame callback of [SingleCube] and the props [RotatingCubes]
      hands to it (oscillator and band smoother),
    - [KaleidoscopeEffect.update] and the fragment shader [mainUv].

    JavaScript numbers and GLSL floats are read as real numbers: rounding is
    not modelled.  Where the code can leave the reals (a division by zero, an
    out-of-range array read) the model says so explicitly, either with an
    [option] or with the extended numbers of [Module Num]. *)

From Stdlib Require Import Reals Lra Lia ZArith List Bool.
Import ListNotations.
Open Scope R_scope.

(** ** JavaScript helpers *)

Module Js.

(** [Math.pow(x, y)] on the arguments the analyzer produces: a base [x >= 0]
    and an exponent [y >= 0].  [Math.pow(0, y)] is [0] for [y > 0] and [1] for
    [y = 0]; elsewhere it is [exp (y * ln x)]. *)
Definition Math_pow (x y : R) : R :=
  if Req_dec_T x 0
  then (if Rlt_dec 0 y then 0 else 1)
  else Rpower x y.

(** [Math.floor], as an integer. *)
Definition Math_floor (x : R) : Z := Zfloor x.

(** [arr.reduce((a, b) => a + b, 0)] on a typed array of bytes. *)
Definition reduce_sum (arr : list Z) : R :=
  fold_left (fun a b => a + IZR b) arr 0.

(** [arr[i]] on a typed array: [None] stands for [undefined], which is what
    an index outside [0 .. length-1] yields. *)
Definition typed_get (arr : list Z) (i : Z) : option Z :=
  if (i <? 0)%Z then None else nth_error arr (Z.to_nat i).

End Js.

(** ** [useAudioAnalyzer]: the loudness boost *)

Module Audio.
Import Js.

(** Lines 43-46 of [updateAudioData], on the array the analyser filled.
    The array has [frequencyBinCount] entries (64 for an FFT size of 128); on
    an empty one the quotient would be [0 / 0], which is not a number:
    [None]. *)
Definition average (dataArray : list Z) : option R :=
  if (0 <? length dataArray)%nat
  then Some (reduce_sum dataArray / INR (length dataArray))
  else None.

Definition normalized (average : R) : R := average / 255.

Definition boosted (normalized : R) : R := Math_pow normalized 0.6.

(** [boost] is the map from the raw average to the value handed to
    [setAudioLevel]. *)
Definition boost (rawAverage : R) : R := boosted (normalized rawAverage).

Definition updateAudioData (dataArray : list Z) : option R :=
  option_map boost (average dataArray).

End Audio.

(** ** [SingleCube] and [RotatingCubes] *)

Module Cube.
Import Js.

(** What the frame callback of one cube reads and writes:
    [groupRef.current.rotation], [groupRef.current.scale] (a uniform scalar),
    the two smoothing refs and the [tubeRadius] state. *)
Record State : Type := mkState {
  rotation_x : R;
  rotation_y : R;
  rotation_z : R;
  scale : R;
  smoothedScale : R;
  smoothedRadius : R;
  tubeRadius : R
}.

(** The props of [SingleCube] the callback uses.  [frequencyData] is [None]
    for a falsy value ([null], [undefined]) and [Some arr] for a typed
    array. *)
Record Props : Type := mkProps {
  size : R;
  hue : R;
  rotationSpeed : R;
  audioLevel : R;
  frequencyData : option (list Z);
  index : Z
}.

(** State at mount: [useRef(1)], [useRef(0.02)], [useState(0.02)]. *)
Definition initial : State :=
  mkState 0 0 0 1 1 0.02 0.02.

Definition basePeriod : R := 60.
Definition minPeriod : R := 15.

Definition audioPeriodReduction (audioLevel : R) : R :=
  audioLevel * (basePeriod - minPeriod).

Definition oscillationPeriod (audioLevel : R) : R :=
  basePeriod - audioPeriodReduction audioLevel.

Definition phase (index : Z) : R := (IZR index / 20) * PI * 2.

(** Line 155.  The audio level is the boost of a byte average, in [0, 1],
    where the period is at least 15; outside that range the period can be 0
    and JavaScript leaves the reals, which this quotient does not model. *)
Definition speedModulation (time audioLevel : R) (index : Z) : R :=
  sin ((time / oscillationPeriod audioLevel) * PI * 2 + phase index).

Definition baseSpeed (rotationSpeed time audioLevel : R) (index : Z) : R :=
  rotationSpeed * speedModulation time audioLevel index.

Definition audioBoostSpeed (audioLevel rotationSpeed : R) : R :=
  audioLevel * rotationSpeed * 2.

Definition effectiveSpeed (rotationSpeed time audioLevel : R) (index : Z) : R :=
  baseSpeed rotationSpeed time audioLevel index
  + audioBoostSpeed audioLevel rotationSpeed.

(** [Math.floor((index / 20) * frequencyData.length)] *)
Definition freqIndex (index : Z) (len : nat) : Z :=
  Math_floor ((IZR index / 20) * INR len).

Definition frequency (byte : Z) : R := IZR byte / 255.

Definition targetScale (frequency : R) : R := 1 + frequency * 0.6.

Definition baseRadius : R := 0.015.
Definition maxRadius : R := 0.06.

Definition targetRadius (frequency : R) : R :=
  baseRadius + frequency * (maxRadius - baseRadius).

Definition smoothingFactor : R := 0.1.

(** [current += (target - current) * smoothingFactor] *)
Definition smooth (current target : R) : R :=
  current + (target - current) * smoothingFactor.

(** Lines 163-165: the three rotation axes. *)
Definition rotate (p : Props) (time delta : R) (s : State) : State :=
  let e := effectiveSpeed (rotationSpeed p) time (audioLevel p) (index p) in
  mkState (rotation_x s + delta * e)
          (rotation_y s + delta * e)
          (rotation_z s + delta * e)
          (scale s) (smoothedScale s) (smoothedRadius s) (tubeRadius s).

(** Lines 173-184, once the byte of the band is known. *)
Definition react (byte : Z) (s : State) : State :=
  let f := frequency byte in
  let sc := smooth (smoothedScale s) (targetScale f) in
  let ra := smooth (smoothedRadius s) (targetRadius f) in
  mkState (rotation_x s) (rotation_y s) (rotation_z s) sc sc ra ra.

(** The callback given to [useFrame].  [state.clock.elapsedTime] is [time].
    The result is [None] when the array read at line 170 is out of range:
    JavaScript then computes with [undefined / 255], which is not a number. *)
Definition useFrame (p : Props) (time delta : R) (s : State) : option State :=
  let s1 := rotate p time delta s in
  match frequencyData p with
  | Some arr =>
      if (0 <? length arr)%nat
      then match typed_get arr (freqIndex (index p) (length arr)) with
           | Some byte => Some (react byte s1)
           | None => None
           end
      else Some s1
  | None => Some s1
  end.

(** [RotatingCubes]: the props of the cube at [index]. *)
Definition cubeCount : Z := 20.
Definition startSize : R := 0.1.
Definition sizeIncrement : R := 0.2.
Definition startHue : R := 0.
Definition hueIncrement : R := 360 / IZR cubeCount.
Definition startRotationSpeed : R := 0.1.
Definition rotationSpeedIncrement : R := 0.01.

Definition cubeRotationSpeed (index : Z) : R :=
  startRotationSpeed + IZR index * rotationSpeedIncrement.

Definition cubeProps (audioLevel : R) (audioData : list Z) (index : Z) : Props :=
  mkProps (startSize + IZR index * sizeIncrement)
          (startHue + IZR index * hueIncrement)
          (cubeRotationSpeed index)
          audioLevel
          (Some audioData)
          index.

(** [k] consecutive frames with the same props; [clock n] gives the elapsed
    time and the delta of frame [n]. *)
Fixpoint frames (p : Props) (clock : nat -> R * R) (k : nat) (s : State)
  : option State :=
  match k with
  | O => Some s
  | S k' =>
      match frames p clock k' s with
      | Some s' => useFrame p (fst (clock k')) (snd (clock k')) s'
      | None => None
      end
  end.

(** [k] smoothing updates toward one target. *)
Fixpoint smooth_n (k : nat) (current target : R) : R :=
  match k with
  | O => current
  | S k' => smooth (smooth_n k' current target) target
  end.

(** Smoothing updates along a sequence of targets, oldest first. *)
Definition smooth_seq (targets : list R) (current : R) : R :=
  fold_left smooth targets current.

End Cube.

(** ** Numbers that can leave the reals

    [width / height] in [KaleidoscopeEffect.update] has no guard, so the
    [aspect] uniform can be an infinity or a NaN.  [num] adds these to the
    reals with the IEEE 754 rules for them; zero is unsigned (the operands
    that matter here, canvas sizes, are never negative). *)

Module Num.

Inductive num : Type :=
| Fin (x : R)
| PInf
| NInf
| NaN.

Definition Rsgn (x : R) : comparison :=
  if Rlt_dec 0 x then Gt else if Rlt_dec x 0 then Lt else Eq.

(** The sign of a number that is not a NaN. *)
Definition sgn (a : num) : comparison :=
  match a with
  | Fin x => Rsgn x
  | PInf => Gt
  | NInf => Lt
  | NaN => Eq
  end.

Definition sgn_mul (c d : comparison) : comparison :=
  match c, d with
  | Eq, _ | _, Eq => Eq
  | Gt, Gt | Lt, Lt => Gt
  | Gt, Lt | Lt, Gt => Lt
  end.

(** The infinity of a sign; no sign (zero times infinity, zero over zero)
    gives NaN. *)
Definition inf_of (c : comparison) : num :=
  match c with
  | Gt => PInf
  | Lt => NInf
  | Eq => NaN
  end.

Definition neg (a : num) : num :=
  match a with
  | Fin x => Fin (- x)
  | PInf => NInf
  | NInf => PInf
  | NaN => NaN
  end.

Definition add (a b : num) : num :=
  match a, b with
  | NaN, _ | _, NaN => NaN
  | Fin x, Fin y => Fin (x + y)
  | Fin _, i => i
  | i, Fin _ => i
  | PInf, PInf => PInf
  | NInf, NInf => NInf
  | PInf, NInf | NInf, PInf => NaN
  end.

Definition sub (a b : num) : num := add a (neg b).

Definition mul (a b : num) : num :=
  match a, b with
  | NaN, _ | _, NaN => NaN
  | Fin x, Fin y => Fin (x * y)
  | _, _ => inf_of (sgn_mul (sgn a) (sgn b))
  end.

Definition div (a b : num) : num :=
  match a, b with
  | NaN, _ | _, NaN => NaN
  | Fin x, Fin y =>
      if Req_dec_T y 0 then inf_of (Rsgn x) else Fin (x / y)
  | Fin _, _ => Fin 0
  | _, Fin y =>
      inf_of (sgn_mul (sgn a) (if Req_dec_T y 0 then Gt else Rsgn y))
  | _, _ => NaN
  end.

(** [a > b]; false when either side is a NaN. *)
Definition gt (a b : num) : bool :=
  match a, b with
  | NaN, _ | _, NaN => false
  | Fin x, Fin y => if Rlt_dec y x then true else false
  | PInf, PInf => false
  | PInf, _ => true
  | _, NInf => match a with NInf => false | _ => true end
  | _, _ => false
  end.

Definition sqrt (a : num) : num :=
  match a with
  | Fin x => if Rlt_dec x 0 then NaN else Fin (R_sqrt.sqrt x)
  | PInf => PInf
  | _ => NaN
  end.

Definition floor (a : num) : num :=
  match a with
  | Fin x => Fin (IZR (Zfloor x))
  | _ => a
  end.

Definition sin (a : num) : num :=
  match a with Fin x => Fin (Rtrigo_def.sin x) | _ => NaN end.

Definition cos (a : num) : num :=
  match a with Fin x => Fin (Rtrigo_def.cos x) | _ => NaN end.

End Num.

(** ** The fragment shader *)

Module Shader.

(** The two-argument arctangent, with values in (-PI, PI].  GLSL leaves
    [atan(0, 0)] undefined; it is 0 here, as on common hardware. *)
Definition atan2 (y x : R) : R :=
  if Rlt_dec 0 x then atan (y / x)
  else if Rlt_dec x 0 then
    (if Rle_dec 0 y then atan (y / x) + PI else atan (y / x) - PI)
  else if Rlt_dec 0 y then PI / 2
  else if Rlt_dec y 0 then - (PI / 2)
  else 0.

(** [atan2] on extended numbers. *)
Definition atan2x (y x : Num.num) : Num.num :=
  match y, x with
  | Num.NaN, _ | _, Num.NaN => Num.NaN
  | Num.Fin b, Num.Fin a => Num.Fin (atan2 b a)
  | Num.Fin _, Num.PInf => Num.Fin 0
  | Num.Fin b, Num.NInf => if Rlt_dec b 0 then Num.Fin (- PI) else Num.Fin PI
  | Num.PInf, Num.Fin _ => Num.Fin (PI / 2)
  | Num.NInf, Num.Fin _ => Num.Fin (- (PI / 2))
  | Num.PInf, Num.PInf => Num.Fin (PI / 4)
  | Num.PInf, Num.NInf => Num.Fin (3 * (PI / 4))
  | Num.NInf, Num.PInf => Num.Fin (- (PI / 4))
  | Num.NInf, Num.NInf => Num.Fin (- (3 * (PI / 4)))
  end.

(** The arithmetic a GLSL [float] offers to [mainUv]. *)
Class GLFloat (A : Type) : Type := {
  lit : R -> A;
  fadd : A -> A -> A;
  fsub : A -> A -> A;
  fmul : A -> A -> A;
  fdiv : A -> A -> A;
  fgt : A -> A -> bool;
  fsqrt : A -> A;
  ffloor : A -> A;
  fsin : A -> A;
  fcos : A -> A;
  fatan : A -> A -> A
}.

(** Floats read as reals. *)
#[export] Instance RFloat : GLFloat R := {|
  lit := fun x => x;
  fadd := Rplus;
  fsub := Rminus;
  fmul := Rmult;
  fdiv := Rdiv;
  fgt := fun a b => if Rlt_dec b a then true else false;
  fsqrt := sqrt;
  ffloor := fun x => IZR (Zfloor x);
  fsin := sin;
  fcos := cos;
  fatan := atan2
|}.

(** Floats read as reals with infinities and NaN. *)
#[export] Instance XFloat : GLFloat Num.num := {|
  lit := Num.Fin;
  fadd := Num.add;
  fsub := Num.sub;
  fmul := Num.mul;
  fdiv := Num.div;
  fgt := Num.gt;
  fsqrt := Num.sqrt;
  ffloor := Num.floor;
  fsin := Num.sin;
  fcos := Num.cos;
  fatan := atan2x
|}.

Declare Scope gl_scope.
Delimit Scope gl_scope with gl.
Infix "+" := fadd : gl_scope.
Infix "-" := fsub : gl_scope.
Infix "*" := fmul : gl_scope.
Infix "/" := fdiv : gl_scope.

Section MainUv.
Context {A : Type} `{GLFloat A}.

(** The value of the constant the shader uses for pi at line 93
    ([PI_source] below); what does not depend on its value is proved for
    every value. *)
Variable PI_literal : R.

Definition vec2 : Type := (A * A)%type.

Definition center : vec2 := (lit 0.5, lit 0.5).

(** [length(v)] *)
Definition length (v : vec2) : A :=
  fsqrt (fst v * fst v + snd v * snd v)%gl.

(** [mod(x, y)], which GLSL defines as [x - y * floor(x / y)]. *)
Definition mod_ (x y : A) : A := (x - y * ffloor (x / y))%gl.

(** Lines 80-87: centre the coordinate and equalize the units. *)
Definition correct (aspect : A) (uv : vec2) : vec2 :=
  let coord := (fst uv - fst center, snd uv - snd center)%gl in
  if fgt aspect (lit 1)
  then (fst coord * aspect, snd coord)%gl
  else (fst coord, snd coord / aspect)%gl.

Definition segmentAngle (segments : A) : A :=
  (lit 2 * lit PI_literal / segments)%gl.

(** Lines 96-101: wrap the angle into a double wedge and mirror its second
    half. *)
Definition foldAngle (segments angle : A) : A :=
  let wrappedAngle := mod_ angle (segmentAngle segments * lit 2)%gl in
  if fgt wrappedAngle (segmentAngle segments)
  then (segmentAngle segments * lit 2 - wrappedAngle)%gl
  else wrappedAngle.

(** Lines 107-113: undo the equalization and move back. *)
Definition uncorrect (aspect : A) (newCoord : vec2) : vec2 :=
  let newCoord :=
    if fgt aspect (lit 1)
    then (fst newCoord / aspect, snd newCoord)%gl
    else (fst newCoord, snd newCoord * aspect)%gl in
  (fst newCoord + fst center, snd newCoord + snd center)%gl.

Definition mainUv (segments aspect : A) (uv : vec2) : vec2 :=
  let coord := correct aspect uv in
  let radius := length coord in
  let angle := fatan (snd coord) (fst coord) in
  let wrappedAngle := foldAngle segments angle in
  let newCoord := (fcos wrappedAngle * radius, fsin wrappedAngle * radius)%gl in
  uncorrect aspect newCoord.

End MainUv.

(** The constant of line 93.  The source spells it [3.14159265359], pi to
    the twelve digits written; in the 32-bit floats of the shader the literal
    and pi are the same number.  Rounding is not modelled, so the constant is
    read as pi, the way [Math.PI] is read in [Module Cube]. *)
Definition PI_source : R := PI.

(** [KaleidoscopeEffect.update]: the canvas width and height are unsigned
    integers, and the quotient is stored in the uniform as it comes. *)
Definition update (width height : N) : Num.num :=
  Num.div (Num.Fin (IZR (Z.of_N width))) (Num.Fin (IZR (Z.of_N height))).

(** What one pixel gets after [update] ran on a canvas of the given size. *)
Definition render (PI_literal segments : R) (width height : N)
  (uv : Num.num * Num.num) : Num.num * Num.num :=
  mainUv PI_literal (Num.Fin segments) (update width height) uv.

(** A real coordinate as an extended one. *)
Definition inj (p : R * R) : Num.num * Num.num :=
  (Num.Fin (fst p), Num.Fin (snd p)).

(** The aspect-equalized distance of a coordinate from the centre
    (lines 80-89). *)
Definition equalizedRadius (aspect : R) (uv : R * R) : R :=
  length (correct aspect uv).

(** The mirror image of [uv] across the line through the centre at angle
    [beta]. *)
Definition mirror (beta : R) (uv : R * R) : R * R :=
  let x := fst uv - 0.5 in
  let y := snd uv - 0.5 in
  (cos (2 * beta) * x + sin (2 * beta) * y + 0.5,
   sin (2 * beta) * x - cos (2 * beta) * y + 0.5).

End Shader.

(** ** Sequences of frames *)

Module Frames.
Import Cube.

(** What one call of the frame callback gets: the props of the render it
    closes over, the elapsed time and the delta. *)
Record Frame : Type := mkFrame {
  props : Props;
  time : R;
  delta : R
}.

(** The callback run on consecutive frames; it stops with [None] at the
    first frame whose array read is out of range. *)
Fixpoint run (fs : list Frame) (s : State) : option State :=
  match fs with
  | [] => Some s
  | f :: fs' =>
      match useFrame (props f) (time f) (delta f) s with
      | Some s' => run fs' s'
      | None => None
      end
  end.

(** The entries of a [Uint8Array]. *)
Definition bytes (arr : list Z) : Prop :=
  Forall (fun b => (0 <= b <= 255)%Z) arr.

(** What the callback keeps true of the values it smooths: they stay in the
    range of their targets, and the scale and the tube radius shown are the
    smoothed ones. *)
Definition steady (s : State) : Prop :=
  1 <= smoothedScale s <= 1.6 /\
  0.015 <= smoothedRadius s <= 0.06 /\
  scale s = smoothedScale s /\
  tubeRadius s = smoothedRadius s.

(** The frames whose spectrum, if any, is a [Uint8Array]. *)
Definition byteFrames (fs : list Frame) : Prop :=
  Forall (fun f => forall arr,
            frequencyData (props f) = Some arr -> bytes arr) fs.

(** The frames [RotatingCubes] produces for the cube at [index]: the audio
    level and the spectrum vary, the rest of the props does not. *)
Definition cubeFrame (index : Z) (level : R) (audioData : list Z)
  (time delta : R) : Frame :=
  mkFrame (cubeProps level audioData index) time delta.

End Frames.

(** ** The edges of a cube ([SingleCube], lines 189-227) *)

Module Edges.

Definition vec3 : Type := (R * R * R)%type.

Definition vx (v : vec3) : R := fst (fst v).
Definition vy (v : vec3) : R := snd (fst v).
Definition vz (v : vec3) : R := snd v.

(** The twelve edges, in the order of the source. *)
Definition edges (size : R) : list (vec3 * vec3) :=
  let half := size / 2 in
  [ ((- half, - half, - half), (half, - half, - half));
    ((half, - half, - half), (half, - half, half));
    ((half, - half, half), (- half, - half, half));
    ((- half, - half, half), (- half, - half, - half));

    ((- half, half, - half), (half, half, - half));
    ((half, half, - half), (half, half, half));
    ((half, half, half), (- half, half, half));
    ((- half, half, half), (- half, half, - half));

    ((- half, - half, - half), (- half, half, - half));
    ((half, - half, - half), (half, half, - half));
    ((half, - half, half), (half, half, half));
    ((- half, - half, half), (- half, half, half)) ].

(** [end.clone().sub(start)] *)
Definition direction (edge : vec3 * vec3) : vec3 :=
  let (start, end_) := edge in
  (vx end_ - vx start, vy end_ - vy start, vz end_ - vz start).

(** [Vector3.length()] *)
Definition length (v : vec3) : R :=
  sqrt (vx v * vx v + vy v * vy v + vz v * vz v).

(** [start.clone().add(end).multiplyScalar(0.5)] *)
Definition midpoint (edge : vec3 * vec3) : vec3 :=
  let (start, end_) := edge in
  ((vx start + vx end_) * 0.5,
   (vy start + vy end_) * 0.5,
   (vz start + vz end_) * 0.5).

(** A corner of the cube of the given size. *)
Definition corner (size : R) (v : vec3) : Prop :=
  (vx v = size / 2 \/ vx v = - (size / 2)) /\
  (vy v = size / 2 \/ vy v = - (size / 2)) /\
  (vz v = size / 2 \/ vz v = - (size / 2)).

End Edges.

(** ** [AudioReactiveBackground] *)

Module Background.

(** Line 276: the scale given to [setScalar]. *)
Definition scale (audioLevel : R) : R := 1 + audioLevel * 0.5.

(** GLSL [clamp], [smoothstep], [mix] and [distance]. *)
Definition clamp (x minVal maxVal : R) : R := Rmin (Rmax x minVal) maxVal.

Definition smoothstep (edge0 edge1 x : R) : R :=
  let t := clamp ((x - edge0) / (edge1 - edge0)) 0 1 in
  t * t * (3 - 2 * t).

Definition mix (x y a : R) : R := x * (1 - a) + y * a.

Definition distance (p q : R * R) : R :=
  sqrt ((fst p - fst q) * (fst p - fst q) + (snd p - snd q) * (snd p - snd q)).

Definition rgb : Type := (R * R * R)%type.

Definition innerColor : rgb := (0.827, 0.827, 0.827).
Definition outerColor : rgb := (0.529, 0.808, 0.922).

Definition mix3 (x y : rgb) (a : R) : rgb :=
  (mix (fst (fst x)) (fst (fst y)) a,
   mix (snd (fst x)) (snd (fst y)) a,
   mix (snd x) (snd y) a).

(** The blend factor of the fragment at [vUv]. *)
Definition blend (vUv : R * R) : R :=
  smoothstep 0 1 (distance vUv (0.5, 0.5)).

(** The fragment shader (lines 294-304): the colour and the alpha. *)
Definition fragColor (vUv : R * R) : rgb * R :=
  (mix3 innerColor outerColor (blend vUv), 1).

End Background.

(** ** The life of [useAudioAnalyzer] (lines 9-71)

    The hook is driven by four kinds of events: the microphone request is
    granted or denied, the browser runs the animation frame callback it
    holds, and React runs the cleanup of the effect.  [bins] is what
    [getByteFrequencyData] writes into the data array at that moment. *)

Module Analyzer.

Inductive Event : Type :=
| Granted (bins : list Z)
| Denied
| AnimationFrame (bins : list Z)
| Cleanup.

(** The audio context, once created. *)
Inductive Context : Type := Running | Closed.

Record Hook : Type := mkHook {
  audioData : list Z;
  (** [None] is a level that is not a number *)
  audioLevel : option R;
  audioContextRef : option Context;
  (** [analyzerRef] and [dataArrayRef] are set together *)
  analyzerRef : bool;
  animationIdRef : option positive;
  (** the handle of the callback the browser holds, if any *)
  requested : option positive;
  (** the next handle [requestAnimationFrame] returns *)
  nextHandle : positive;
  (** the promise of [getUserMedia] has settled *)
  settled : bool;
  (** the microphone stream obtained at line 20 is live *)
  streamLive : bool
}.

(** The hook at mount: [useState(new Uint8Array(0))], [useState(0)], and all
    refs [null]. *)
Definition mount : Hook :=
  mkHook [] (Some 0) None false None None 1%positive false false.

(** Lines 37-50. *)
Definition updateAudioData (bins : list Z) (h : Hook) : Hook :=
  let id := nextHandle h in
  mkHook (if analyzerRef h then bins else audioData h)
         (if analyzerRef h then Audio.updateAudioData bins else audioLevel h)
         (audioContextRef h)
         (analyzerRef h)
         (Some id)
         (Some id)
         (Pos.succ id)
         (settled h)
         (streamLive h).

(** Lines 20-52, once the stream is there. *)
Definition granted (bins : list Z) (h : Hook) : Hook :=
  updateAudioData bins
    (mkHook (audioData h) (audioLevel h) (Some Running) true
            (animationIdRef h) (requested h) (nextHandle h) true true).

(** Lines 53-55: the error is logged and nothing else happens. *)
Definition denied (h : Hook) : Hook :=
  mkHook (audioData h) (audioLevel h) (audioContextRef h) (analyzerRef h)
         (animationIdRef h) (requested h) (nextHandle h) true (streamLive h).

(** [cancelAnimationFrame(id)] drops the callback with that handle. *)
Definition cancelAnimationFrame (id : positive) (req : option positive)
  : option positive :=
  match req with
  | Some r => if Pos.eqb r id then None else Some r
  | None => None
  end.

(** Lines 60-67. *)
Definition cleanup (h : Hook) : Hook :=
  mkHook (audioData h) (audioLevel h)
         (match audioContextRef h with
          | Some _ => Some Closed
          | None => None
          end)
         (analyzerRef h)
         (animationIdRef h)
         (match animationIdRef h with
          | Some id => cancelAnimationFrame id (requested h)
          | None => requested h
          end)
         (nextHandle h) (settled h) (streamLive h).

Definition step (h : Hook) (e : Event) : Hook :=
  match e with
  | Granted bins => if settled h then h else granted bins h
  | Denied => if settled h then h else denied h
  | AnimationFrame bins =>
      match requested h with
      | Some _ =>
          updateAudioData bins
            (mkHook (audioData h) (audioLevel h) (audioContextRef h)
                    (analyzerRef h) (animationIdRef h) None (nextHandle h)
                    (settled h) (streamLive h))
      | None => h
      end
  | Cleanup => cleanup h
  end.

Definition run (es : list Event) (h : Hook) : Hook := fold_left step es h.

(** The callback the browser holds, if any, is the one whose handle the ref
    remembers. *)
Definition linked (h : Hook) : Prop :=
  requested h = None \/ requested h = animationIdRef h.

(** A hook that is torn down: settled, with no callback held and no running
    context. *)
Definition torn (h : Hook) : Prop :=
  settled h = true /\ requested h = None /\ audioContextRef h <> Some Running.

(** A hook that polls: the analyser is set, the context runs, the stream is
    live and the browser holds a frame callback. *)
Definition polling (h : Hook) : Prop :=
  analyzerRef h = true /\
  audioContextRef h = Some Running /\
  streamLive h = true /\
  requested h <> None.

End Analyzer.

(** * Properties *)

(** ** The loudness boost *)

Module AudioFacts.
Import Js Audio.

Lemma Math_pow_0 (y : R) : 0 < y -> Math_pow 0 y = 0.
Proof.
  intros Hy. unfold Math_pow.
  destruct (Req_dec_T 0 0) as [_ | Hne]; [| contradiction Hne; reflexivity].
  destruct (Rlt_dec 0 y); [reflexivity | contradiction].
Qed.

Lemma Math_pow_pos (x y : R) : 0 < x -> Math_pow x y = Rpower x y.
Proof.
  intros Hx. unfold Math_pow.
  destruct (Req_dec_T x 0) as [Heq | _]; [lra | reflexivity].
Qed.

Lemma Math_pow_1 (y : R) : Math_pow 1 y = 1.
Proof.
  rewrite Math_pow_pos by lra.
  unfold Rpower. rewrite ln_1, Rmult_0_r. apply exp_0.
Qed.

Lemma Math_pow_nonneg (x y : R) : 0 <= x -> 0 <= Math_pow x y.
Proof.
  intros Hx. unfold Math_pow.
  destruct (Req_dec_T x 0).
  - destruct (Rlt_dec 0 y); lra.
  - unfold Rpower. left. apply exp_pos.
Qed.

(** [Math.pow] is non-decreasing in a non-negative base, for a positive
    exponent. *)
Lemma Math_pow_le (x1 x2 y : R) :
  0 < y -> 0 <= x1 -> x1 <= x2 -> Math_pow x1 y <= Math_pow x2 y.
Proof.
  intros Hy H1 H12.
  destruct (Req_dec_T x1 0) as [-> | Hne].
  - rewrite Math_pow_0 by assumption. apply Math_pow_nonneg. assumption.
  - rewrite !Math_pow_pos by lra.
    apply Rle_Rpower_l; lra.
Qed.

(** A power below one raises a base of (0, 1). *)
Lemma Math_pow_expands (gamma n : R) :
  0 < gamma < 1 -> 0 < n < 1 -> n <= Math_pow n gamma.
Proof.
  intros Hg Hn. rewrite Math_pow_pos by lra.
  unfold Rpower.
  assert (Hln : ln n < 0) by (rewrite <- ln_1; apply ln_increasing; lra).
  rewrite <- (exp_ln n) at 1 by lra.
  left. apply exp_increasing. nra.
Qed.

Lemma boost_0 : boost 0 = 0.
Proof.
  unfold boost, normalized, boosted.
  replace (0 / 255) with 0 by lra.
  apply Math_pow_0. lra.
Qed.

Lemma boost_255 : boost 255 = 1.
Proof.
  unfold boost, normalized, boosted.
  replace (255 / 255) with 1 by lra.
  apply Math_pow_1.
Qed.

Lemma boost_le (a b : R) : 0 <= a -> a <= b -> boost a <= boost b.
Proof.
  intros Ha Hab. unfold boost, normalized, boosted.
  apply Math_pow_le; lra.
Qed.

(** The sum of an array of zeros. *)
Lemma reduce_sum_zeros (n : nat) (acc : R) :
  fold_left (fun a b => a + IZR b) (repeat 0%Z n) acc = acc.
Proof.
  revert acc. induction n as [| n IH]; intros acc; simpl.
  - reflexivity.
  - rewrite IH. lra.
Qed.

Lemma updateAudioData_zeros (n : nat) :
  (0 < n)%nat -> updateAudioData (repeat 0%Z n) = Some 0.
Proof.
  intros Hn. unfold updateAudioData, average, reduce_sum.
  rewrite repeat_length.
  destruct (Nat.ltb_spec 0 n) as [_ | Hle]; [| lia].
  simpl. rewrite reduce_sum_zeros.
  replace (0 / INR n) with 0
    by (unfold Rdiv; rewrite Rmult_0_l; reflexivity).
  rewrite boost_0. reflexivity.
Qed.

(** C4: for a raw average in [0, 255] the boost [(raw/255)^0.6] lies in
    [0, 1]; it is 0 at 0 and 1 at 255; it is non-decreasing; and for every
    exponent gamma in (0, 1) the boosted value is at least the normalized one
    on (0, 1). *)
Theorem boost_range_and_monotone :
  (forall raw, boost raw = Math_pow (raw / 255) 0.6) /\
  (forall raw, 0 <= raw <= 255 -> 0 <= boost raw <= 1) /\
  boost 0 = 0 /\
  boost 255 = 1 /\
  (forall a b, 0 <= a -> a <= b -> b <= 255 -> boost a <= boost b) /\
  (forall gamma n, 0 < gamma < 1 -> 0 < n < 1 -> n <= Math_pow n gamma).
Proof.
  split; [reflexivity |].
  split.
  { intros raw [H0 H255]. split.
    - unfold boost, boosted, normalized. apply Math_pow_nonneg. lra.
    - rewrite <- boost_255. apply boost_le; assumption. }
  split; [exact boost_0 |].
  split; [exact boost_255 |].
  split.
  - intros a b Ha Hab _. apply boost_le; assumption.
  - exact Math_pow_expands.
Qed.

Lemma boost_range_and_monotone_witness :
  0 <= boost 128 <= 1 /\ boost 64 <= boost 128 /\ 0.25 <= Math_pow 0.25 0.6.
Proof.
  destruct boost_range_and_monotone as (_ & Hr & _ & _ & Hm & Hg).
  split; [apply Hr; lra |].
  split; [apply Hm; lra | apply Hg; lra].
Defined.

End AudioFacts.

(** ** The oscillator and the band smoother *)

Module CubeFacts.
Import Js Cube.

(** *** The smoother *)

Lemma smooth_n_closed (k : nat) (x0 T : R) :
  smooth_n k x0 T = T - (T - x0) * (1 - smoothingFactor) ^ k.
Proof.
  induction k as [| k IH]; simpl.
  - lra.
  - rewrite IH. unfold smooth. lra.
Qed.

Lemma smooth_between (x T : R) : Rmin x T <= smooth x T <= Rmax x T.
Proof.
  unfold smooth, smoothingFactor, Rmin, Rmax.
  destruct (Rle_dec x T); lra.
Qed.

(** Every value along a sequence of targets stays between the value before
    the update and the target of the update. *)
Lemma smooth_seq_snoc (targets : list R) (T x : R) :
  smooth_seq (targets ++ [T]) x = smooth (smooth_seq targets x) T.
Proof. unfold smooth_seq. rewrite fold_left_app. reflexivity. Qed.

(** *** The band index *)

Lemma freqIndex_bounds (i : Z) (len : nat) :
  (0 <= i < 20)%Z -> (0 < len)%nat ->
  (0 <= freqIndex i len <= Z.of_nat len - 1)%Z.
Proof.
  intros [Hi0 Hi20] Hlen.
  unfold freqIndex, Math_floor.
  assert (HL : 0 < INR len) by (apply lt_0_INR; exact Hlen).
  assert (H0 : 0 <= IZR i) by (apply IZR_le in Hi0; exact Hi0).
  assert (H19 : IZR i <= 19).
  { apply (IZR_le i 19). lia. }
  split.
  - apply Zfloor_lub. simpl. nra.
  - assert (Hlt : (Zfloor (IZR i / 20 * INR len) < Z.of_nat len)%Z); [| lia].
    apply lt_IZR. rewrite <- INR_IZR_INZ.
    pose proof (Zfloor_bound (IZR i / 20 * INR len)) as [Hb _].
    nra.
Qed.

Lemma typed_get_in_range (arr : list Z) (i : Z) :
  (0 <= i <= Z.of_nat (length arr) - 1)%Z ->
  exists byte, typed_get arr i = Some byte.
Proof.
  intros Hi. unfold typed_get.
  destruct (Z.ltb_spec i 0) as [Hneg | _]; [lia |].
  destruct (nth_error arr (Z.to_nat i)) as [b |] eqn:E.
  - exists b. reflexivity.
  - apply nth_error_None in E. lia.
Qed.

(** *** The frame callback *)

Lemma useFrame_react (p : Props) (arr : list Z) (byte : Z) (time delta : R)
  (s : State) :
  frequencyData p = Some arr ->
  typed_get arr (freqIndex (index p) (length arr)) = Some byte ->
  useFrame p time delta s = Some (react byte (rotate p time delta s)).
Proof.
  intros Hd Hg. unfold useFrame. rewrite Hd.
  destruct (Nat.ltb_spec 0 (length arr)) as [_ | Hle].
  - rewrite Hg. reflexivity.
  - destruct arr; [| simpl in Hle; lia].
    unfold typed_get in Hg.
    destruct (freqIndex (index p) (length (@nil Z)) <? 0)%Z;
      [discriminate |].
    destruct (Z.to_nat (freqIndex (index p) (length (@nil Z))));
      discriminate.
Qed.

Lemma useFrame_hold (p : Props) (time delta : R) (s : State) :
  frequencyData p = Some [] \/ frequencyData p = None ->
  useFrame p time delta s = Some (rotate p time delta s).
Proof.
  intros [Hd | Hd]; unfold useFrame; rewrite Hd; reflexivity.
Qed.

Lemma frames_smooth (p : Props) (arr : list Z) (byte : Z)
  (clock : nat -> R * R) (k : nat) (s : State) :
  frequencyData p = Some arr ->
  typed_get arr (freqIndex (index p) (length arr)) = Some byte ->
  exists s',
    frames p clock k s = Some s' /\
    smoothedScale s' =
      smooth_n k (smoothedScale s) (targetScale (frequency byte)) /\
    smoothedRadius s' =
      smooth_n k (smoothedRadius s) (targetRadius (frequency byte)).
Proof.
  intros Hd Hg. induction k as [| k (s1 & Hf & Hsc & Hra)].
  - exists s. simpl. auto.
  - simpl. rewrite Hf.
    rewrite (useFrame_react p arr byte) by assumption.
    eexists. split; [reflexivity |].
    simpl. rewrite Hsc, Hra. split; reflexivity.
Qed.

(** C3: [k] updates [x += (T - x) * 0.1] toward a constant target [T] give
    [T - (T - initial) * (1 - 0.1)^k]; along any sequence of targets each
    update leaves the value between the value before it and its target; and
    [k] frames of the callback on an unchanged spectrum are [k] such updates
    of the scale and of the tube radius. *)
Theorem smoother_closed_form_no_overshoot :
  smoothingFactor = 0.1 /\
  (forall k x0 T,
     smooth_n k x0 T = T - (T - x0) * (1 - smoothingFactor) ^ k) /\
  (forall targets T x,
     Rmin (smooth_seq targets x) T
       <= smooth_seq (targets ++ [T]) x
       <= Rmax (smooth_seq targets x) T) /\
  (forall p arr byte clock k s,
     frequencyData p = Some arr ->
     typed_get arr (freqIndex (index p) (length arr)) = Some byte ->
     exists s',
       frames p clock k s = Some s' /\
       smoothedScale s' =
         targetScale (frequency byte)
         - (targetScale (frequency byte) - smoothedScale s)
           * (1 - smoothingFactor) ^ k /\
       smoothedRadius s' =
         targetRadius (frequency byte)
         - (targetRadius (frequency byte) - smoothedRadius s)
           * (1 - smoothingFactor) ^ k).
Proof.
  split; [reflexivity |].
  split; [exact (fun k x0 T => smooth_n_closed k x0 T) |].
  split.
  - intros targets T x. rewrite smooth_seq_snoc. apply smooth_between.
  - intros p arr byte clock k s Hd Hg.
    destruct (frames_smooth p arr byte clock k s Hd Hg) as (s' & Hf & Hsc & Hra).
    exists s'. rewrite <- !smooth_n_closed. auto.
Qed.

Lemma smoother_closed_form_no_overshoot_witness :
  exists s',
    frames (cubeProps 0 [255%Z; 0%Z] 0) (fun _ => (0, 0)) 3 initial = Some s' /\
    smoothedScale s' =
      targetScale (frequency 255) -
      (targetScale (frequency 255) - smoothedScale initial)
      * (1 - smoothingFactor) ^ 3 /\
    smoothedRadius s' =
      targetRadius (frequency 255) -
      (targetRadius (frequency 255) - smoothedRadius initial)
      * (1 - smoothingFactor) ^ 3.
Proof.
  destruct smoother_closed_form_no_overshoot as (_ & _ & _ & H).
  apply (H (cubeProps 0 [255%Z; 0%Z] 0) [255%Z; 0%Z] 255%Z).
  - reflexivity.
  - unfold typed_get, freqIndex, Math_floor. simpl.
    replace (0 / 20 * (1 + 1)) with (IZR 0) by lra.
    rewrite ZfloorZ. reflexivity.
Defined.

(** C5: for a reactivity scalar in [0, 1] the period
    [basePeriod - r * (basePeriod - minPeriod)], with base 60 and minimum 15,
    lies between the minimum and the base; it is the base at 0 and the
    minimum at 1; the minimum is strictly positive, so [time / period] never
    divides by zero. *)
Theorem period_bounds :
  basePeriod = 60 /\ minPeriod = 15 /\
  (forall r, 0 <= r <= 1 ->
     minPeriod <= oscillationPeriod r <= basePeriod) /\
  oscillationPeriod 0 = basePeriod /\
  oscillationPeriod 1 = minPeriod /\
  0 < minPeriod /\
  (forall r, 0 <= r <= 1 -> oscillationPeriod r <> 0).
Proof.
  unfold oscillationPeriod, audioPeriodReduction, basePeriod, minPeriod.
  repeat split; intros; try lra; try nra.
Qed.

Lemma period_bounds_witness :
  minPeriod <= oscillationPeriod 0.5 <= basePeriod /\
  oscillationPeriod 0.5 <> 0.
Proof.
  destruct period_bounds as (_ & _ & Hr & _ & _ & _ & Hnz).
  split; [apply Hr; lra | apply Hnz; lra].
Defined.

(** C6: for an object index [0 <= i < 20] and a spectrum of length
    [L > 0], the band index [floor((i / 20) * L)] lies in [0, L-1], and the
    read of the spectrum at it yields a byte. *)
Theorem band_index_in_bounds (i : Z) (arr : list Z) :
  (0 <= i < cubeCount)%Z -> (0 < length arr)%nat ->
  (0 <= freqIndex i (length arr) <= Z.of_nat (length arr) - 1)%Z /\
  exists byte, typed_get arr (freqIndex i (length arr)) = Some byte.
Proof.
  intros Hi Hlen.
  pose proof (freqIndex_bounds i (length arr) Hi Hlen) as Hb.
  split; [exact Hb | apply typed_get_in_range; exact Hb].
Qed.

Lemma band_index_in_bounds_witness :
  (0 <= freqIndex 19 (length [1%Z; 2%Z; 3%Z])
     <= Z.of_nat (length [1%Z; 2%Z; 3%Z]) - 1)%Z /\
  exists byte,
    typed_get [1%Z; 2%Z; 3%Z] (freqIndex 19 (length [1%Z; 2%Z; 3%Z]))
      = Some byte.
Proof.
  apply (band_index_in_bounds 19 [1%Z; 2%Z; 3%Z]).
  - unfold cubeCount. lia.
  - simpl. lia.
Defined.

(** C7: a frame whose spectrum is empty (or absent) returns a state, and in
    it the smoothed scale, the smoothed tube radius, the scale and the tube
    radius are the ones of the state before. *)
Theorem empty_spectrum_holds_state (p : Props) (time delta : R) (s : State) :
  frequencyData p = Some [] \/ frequencyData p = None ->
  exists s',
    useFrame p time delta s = Some s' /\
    smoothedScale s' = smoothedScale s /\
    smoothedRadius s' = smoothedRadius s /\
    scale s' = scale s /\
    tubeRadius s' = tubeRadius s.
Proof.
  intros Hd. exists (rotate p time delta s).
  split; [apply useFrame_hold; exact Hd |].
  simpl. repeat split.
Qed.

Lemma empty_spectrum_holds_state_witness :
  exists s',
    useFrame (cubeProps 0 [] 3) 1 1 initial = Some s' /\
    smoothedScale s' = smoothedScale initial /\
    smoothedRadius s' = smoothedRadius initial /\
    scale s' = scale initial /\
    tubeRadius s' = tubeRadius initial.
Proof.
  apply (empty_spectrum_holds_state (cubeProps 0 [] 3) 1 1 initial).
  left. reflexivity.
Defined.

Lemma cubeRotationSpeed_pos (i : Z) : (0 <= i)%Z -> 0 < cubeRotationSpeed i.
Proof.
  intros Hi. apply IZR_le in Hi.
  unfold cubeRotationSpeed, startRotationSpeed, rotationSpeedIncrement. nra.
Qed.

Lemma speedModulation_three_quarters :
  speedModulation 45 0 0 = -1.
Proof.
  unfold speedModulation, oscillationPeriod, audioPeriodReduction, phase,
    basePeriod, minPeriod.
  replace (45 / (60 - 0 * (60 - 15)) * PI * 2 + 0 / 20 * PI * 2)
    with (3 * (PI / 2)) by lra.
  apply sin_3PI2.
Qed.

(** C8: for an object index [i >= 0] and a reactivity scalar in [0, 1] the
    base speed [0.1 + i * 0.01] is positive and the audio boost
    [r * rotationSpeed * 2] is not negative, while the oscillation term
    [rotationSpeed * sin(...)] is negative for some time. *)
Theorem audio_boost_nonnegative :
  (forall i r, (0 <= i)%Z -> 0 <= r <= 1 ->
     cubeRotationSpeed i = 0.1 + IZR i * 0.01 /\
     0 < cubeRotationSpeed i /\
     0 <= audioBoostSpeed r (cubeRotationSpeed i)) /\
  (exists time r i,
     (0 <= i < cubeCount)%Z /\ 0 <= r <= 1 /\
     baseSpeed (cubeRotationSpeed i) time r i < 0).
Proof.
  split.
  - intros i r Hi Hr.
    pose proof (cubeRotationSpeed_pos i Hi) as Hpos.
    split; [reflexivity |]. split; [exact Hpos |].
    unfold audioBoostSpeed. nra.
  - exists 45, 0, 0%Z.
    split; [unfold cubeCount; lia |]. split; [lra |].
    unfold baseSpeed. rewrite speedModulation_three_quarters.
    unfold cubeRotationSpeed, startRotationSpeed, rotationSpeedIncrement.
    lra.
Qed.

Lemma audio_boost_nonnegative_witness :
  0 <= audioBoostSpeed 0.5 (cubeRotationSpeed 7).
Proof.
  apply (proj1 audio_boost_nonnegative 7%Z 0.5); [lia | lra].
Defined.

Lemma speedModulation_quarter : speedModulation 15 0 0 = 1.
Proof.
  unfold speedModulation, oscillationPeriod, audioPeriodReduction, phase,
    basePeriod, minPeriod.
  replace (15 / (60 - 0 * (60 - 15)) * PI * 2 + 0 / 20 * PI * 2)
    with (PI / 2) by lra.
  apply sin_PI2.
Qed.

(** C9: with a spectrum of zeros the audio level is [boost 0 = 0]; at
    [time = 15] the cube of index 0 has phase 0, period 60, oscillation
    [sin(pi/2) = 1], no audio boost and an effective speed equal to its
    rotation speed; the frame adds [rotationSpeed * delta] to each of the
    three rotation axes. *)
Theorem silent_quarter_period_frame (n : nat) (delta : R) (s : State) :
  (0 < n)%nat ->
  let audioData := repeat 0%Z n in
  let p := cubeProps 0 audioData 0 in
  Audio.updateAudioData audioData = Some 0 /\
  phase (index p) = 0 /\
  oscillationPeriod (audioLevel p) = 60 /\
  speedModulation 15 (audioLevel p) (index p) = 1 /\
  audioBoostSpeed (audioLevel p) (rotationSpeed p) = 0 /\
  effectiveSpeed (rotationSpeed p) 15 (audioLevel p) (index p)
    = rotationSpeed p /\
  exists s',
    useFrame p 15 delta s = Some s' /\
    rotation_x s' = rotation_x s + rotationSpeed p * delta /\
    rotation_y s' = rotation_y s + rotationSpeed p * delta /\
    rotation_z s' = rotation_z s + rotationSpeed p * delta.
Proof.
  intros Hn audioData p.
  assert (He : effectiveSpeed (rotationSpeed p) 15 (audioLevel p) (index p)
               = rotationSpeed p).
  { unfold effectiveSpeed, baseSpeed. simpl.
    rewrite speedModulation_quarter. unfold audioBoostSpeed. lra. }
  split; [apply AudioFacts.updateAudioData_zeros; exact Hn |].
  split; [unfold phase; simpl; lra |].
  split; [unfold oscillationPeriod, audioPeriodReduction, basePeriod,
            minPeriod; simpl; lra |].
  split; [exact speedModulation_quarter |].
  split; [unfold audioBoostSpeed; simpl; lra |].
  split; [exact He |].
  assert (Hlen : (0 < length audioData)%nat)
    by (unfold audioData; rewrite repeat_length; exact Hn).
  destruct (typed_get_in_range audioData (freqIndex 0 (length audioData)))
    as [byte Hbyte].
  { apply freqIndex_bounds; [lia | exact Hlen]. }
  exists (react byte (rotate p 15 delta s)).
  split.
  - apply (useFrame_react p audioData byte); [reflexivity | exact Hbyte].
  - unfold react, rotate. cbv zeta. rewrite He. simpl. repeat split; lra.
Qed.

Lemma silent_quarter_period_frame_witness :
  exists s',
    useFrame (cubeProps 0 (repeat 0%Z 64) 0) 15 0.016 initial = Some s' /\
    rotation_x s' =
      rotation_x initial + rotationSpeed (cubeProps 0 (repeat 0%Z 64) 0) * 0.016.
Proof.
  destruct (silent_quarter_period_frame 64 0.016 initial)
    as (_ & _ & _ & _ & _ & _ & s' & Hf & Hx & _); [lia |].
  exists s'. split; assumption.
Defined.

End CubeFacts.

(** ** The kaleidoscope fold *)

Module ShaderFacts.
Import Shader.

(** *** The stages of [mainUv] on real numbers *)

Lemma correct_R (aspect u v : R) :
  correct aspect (u, v) =
  if Rlt_dec 1 aspect
  then ((u - 0.5) * aspect, v - 0.5)
  else (u - 0.5, (v - 0.5) / aspect).
Proof.
  unfold correct, center. simpl. destruct (Rlt_dec 1 aspect); reflexivity.
Qed.

Lemma uncorrect_R (aspect x y : R) :
  uncorrect aspect (x, y) =
  if Rlt_dec 1 aspect
  then (x / aspect + 0.5, y + 0.5)
  else (x + 0.5, y * aspect + 0.5).
Proof.
  unfold uncorrect, center. simpl. destruct (Rlt_dec 1 aspect); reflexivity.
Qed.

Lemma length_R (x y : R) : Shader.length (x, y) = sqrt (x * x + y * y).
Proof. reflexivity. Qed.

Lemma mod_R (x p : R) : mod_ x p = x - p * IZR (Zfloor (x / p)).
Proof. reflexivity. Qed.

Lemma foldAngle_R (PI_literal segments angle : R) :
  foldAngle PI_literal segments angle =
  let s := 2 * PI_literal / segments in
  let w := mod_ angle (s * 2) in
  if Rlt_dec s w then s * 2 - w else w.
Proof.
  unfold foldAngle, segmentAngle. simpl.
  destruct (Rlt_dec _ _); reflexivity.
Qed.

Lemma mainUv_R (PI_literal segments aspect : R) (uv : R * R) :
  mainUv PI_literal segments aspect uv =
  let coord := correct aspect uv in
  let radius := Shader.length coord in
  let w := foldAngle PI_literal segments (atan2 (snd coord) (fst coord)) in
  uncorrect aspect (cos w * radius, sin w * radius).
Proof. reflexivity. Qed.

(** Correcting what [uncorrect] produced gives the coordinate back. *)
Lemma correct_uncorrect (aspect x y : R) :
  0 < aspect -> correct aspect (uncorrect aspect (x, y)) = (x, y).
Proof.
  intros Ha. rewrite uncorrect_R.
  destruct (Rlt_dec 1 aspect) as [H1 | H1]; rewrite correct_R;
    destruct (Rlt_dec 1 aspect); try contradiction;
    f_equal; field; lra.
Qed.

Lemma length_nonneg (x y : R) : 0 <= Shader.length (x, y).
Proof. rewrite length_R. apply sqrt_pos. Qed.

Lemma length_polar (w r : R) :
  0 <= r -> Shader.length (cos w * r, sin w * r) = r.
Proof.
  intros Hr. rewrite length_R.
  replace (cos w * r * (cos w * r) + sin w * r * (sin w * r))
    with ((sin w * sin w + cos w * cos w) * (r * r)) by ring.
  pose proof (sin2_cos2 w) as H1. unfold Rsqr in H1. rewrite H1, Rmult_1_l.
  apply sqrt_square. exact Hr.
Qed.

(** C10: for an aspect above zero (and any segment count, any value of the
    pi constant) the fold keeps the aspect-equalized distance from the centre:
    the output lies on the same aspect-corrected circle as the input. *)
Theorem fold_preserves_equalized_radius
  (PI_literal segments aspect : R) (uv : R * R) :
  0 < aspect -> 2 <= segments ->
  equalizedRadius aspect (mainUv PI_literal segments aspect uv)
  = equalizedRadius aspect uv.
Proof.
  intros Ha _. unfold equalizedRadius.
  rewrite mainUv_R. cbv zeta.
  rewrite correct_uncorrect by exact Ha.
  destruct (correct aspect uv) as [x y].
  apply length_polar. apply length_nonneg.
Qed.

Lemma fold_preserves_equalized_radius_witness :
  equalizedRadius 1.5 (mainUv PI_source 12 1.5 (0.25, 0.75))
  = equalizedRadius 1.5 (0.25, 0.75).
Proof.
  apply (fold_preserves_equalized_radius PI_source 12 1.5 (0.25, 0.75)); lra.
Defined.

(** *** Wrapping and mirroring of the angle *)

Lemma mod_range (x p : R) : 0 < p -> 0 <= mod_ x p < p.
Proof.
  intros Hp. rewrite mod_R.
  pose proof (Zfloor_bound (x / p)) as [Hlo Hhi].
  assert (Hx : x = x / p * p) by (field; lra).
  split; nra.
Qed.

Lemma mod_unique (x p w : R) (n : Z) :
  0 < p -> x = w + IZR n * p -> 0 <= w < p -> mod_ x p = w.
Proof.
  intros Hp Hx [Hw0 Hwp]. rewrite mod_R.
  assert (Hfl : Zfloor (x / p) = n).
  { apply Zfloor_eq.
    assert (Hq : x / p = IZR n + w / p) by (rewrite Hx; field; lra).
    rewrite Hq.
    assert (0 <= w / p).
    { apply (Rmult_le_reg_r p); [exact Hp |].
      replace (w / p * p) with w by (field; lra). lra. }
    assert (w / p < 1).
    { apply (Rmult_lt_reg_r p); [exact Hp |].
      replace (w / p * p) with w by (field; lra). lra. }
    lra. }
  rewrite Hfl, Hx. ring.
Qed.

(** The folded angle is an even function of the angle, and has the double
    wedge as a period. *)
Lemma foldAngle_mirror (PI_literal segments theta : R) (n : Z) :
  0 < 2 * PI_literal / segments ->
  foldAngle PI_literal segments
    (- theta + IZR n * (2 * PI_literal / segments * 2))
  = foldAngle PI_literal segments theta.
Proof.
  intros Hs. rewrite !foldAngle_R. cbv zeta.
  set (s := 2 * PI_literal / segments) in *.
  assert (Hp : 0 < s * 2) by lra.
  pose proof (mod_range theta (s * 2) Hp) as [Hw0 Hwp].
  set (w := mod_ theta (s * 2)) in *.
  set (m := Zfloor (theta / (s * 2))).
  assert (Htheta : theta = w + IZR m * (s * 2)).
  { unfold w. rewrite mod_R. fold m. ring. }
  destruct (Req_dec_T w 0) as [Hz | Hnz].
  - assert (Hm : mod_ (- theta + IZR n * (s * 2)) (s * 2) = 0).
    { apply (mod_unique _ _ _ (n - m)%Z); [exact Hp | | lra].
      rewrite minus_IZR, Htheta, Hz. ring. }
    rewrite Hm, Hz.
    destruct (Rlt_dec s 0); [lra | reflexivity].
  - assert (Hm : mod_ (- theta + IZR n * (s * 2)) (s * 2) = s * 2 - w).
    { apply (mod_unique _ _ _ (n - m - 1)%Z); [exact Hp | | lra].
      rewrite !minus_IZR, Htheta. ring. }
    rewrite Hm.
    destruct (Rlt_dec s (s * 2 - w)), (Rlt_dec s w); lra.
Qed.

(** *** The arctangent gives the polar angle *)

Lemma sqrt_one_plus_sqr (x y : R) :
  x <> 0 -> sqrt (1 + (y / x)²) = sqrt (x * x + y * y) / Rabs x.
Proof.
  intros Hx.
  assert (Hax : 0 < Rabs x) by (apply Rabs_pos_lt; exact Hx).
  apply sqrt_lem_1.
  - unfold Rsqr. nra.
  - apply Rmult_le_pos; [apply sqrt_pos | left; apply Rinv_0_lt_compat; exact Hax].
  - unfold Rdiv.
    replace (sqrt (x * x + y * y) * / Rabs x * (sqrt (x * x + y * y) * / Rabs x))
      with ((sqrt (x * x + y * y) * sqrt (x * x + y * y)) * / (Rabs x * Rabs x))
      by (field; lra).
    rewrite sqrt_sqrt by nra.
    replace (Rabs x * Rabs x) with (x * x)
      by (fold (Rsqr (Rabs x)); rewrite <- Rsqr_abs; reflexivity).
    unfold Rsqr. field. exact Hx.
Qed.

Lemma atan2_polar (x y : R) :
  let r := sqrt (x * x + y * y) in
  r * cos (atan2 y x) = x /\ r * sin (atan2 y x) = y.
Proof.
  intros r. unfold atan2.
  destruct (Rlt_dec 0 x) as [Hpos | Hnpos].
  - assert (Hr : 0 < r) by (apply sqrt_lt_R0; nra).
    rewrite cos_atan, sin_atan, sqrt_one_plus_sqr by lra.
    rewrite Rabs_right by lra. fold r.
    split; field; lra.
  - destruct (Rlt_dec x 0) as [Hneg | Hnneg].
    + assert (Hr : 0 < r) by (apply sqrt_lt_R0; nra).
      assert (Hc : cos (atan (y / x)) = - x / r).
      { rewrite cos_atan, sqrt_one_plus_sqr by lra.
        rewrite Rabs_left by lra. fold r. field; lra. }
      assert (Hsn : sin (atan (y / x)) = - y / r).
      { rewrite sin_atan, sqrt_one_plus_sqr by lra.
        rewrite Rabs_left by lra. fold r. field; lra. }
      destruct (Rle_dec 0 y).
      * rewrite neg_cos, neg_sin, Hc, Hsn. split; field; lra.
      * unfold Rminus. rewrite cos_plus, sin_plus, cos_neg, sin_neg.
        rewrite cos_PI, sin_PI, Hc, Hsn. split; field; lra.
    + assert (Hx : x = 0) by lra. subst x.
      assert (Hry : r = sqrt (y * y)) by (unfold r; f_equal; ring).
      destruct (Rlt_dec 0 y) as [Hy | Hy].
      * rewrite cos_PI2, sin_PI2, Hry, sqrt_square by lra. lra.
      * destruct (Rlt_dec y 0) as [Hy' | Hy'].
        -- rewrite cos_neg, sin_neg, cos_PI2, sin_PI2, Hry.
           replace (y * y) with (- y * - y) by ring.
           rewrite sqrt_square by lra. lra.
        -- assert (y = 0) by lra. subst y.
           rewrite Hry, Rmult_0_l, sqrt_0. lra.
Qed.

(** Two angles with the same cosine and sine differ by whole turns. *)
Lemma angle_unique (a b : R) :
  cos a = cos b -> sin a = sin b -> exists m : Z, a = b + IZR m * (2 * PI).
Proof.
  intros Hc Hs.
  assert (H1 : cos (a - b) = 1).
  { rewrite cos_minus, Hc, Hs.
    pose proof (sin2_cos2 b) as H. unfold Rsqr in H. lra. }
  assert (H0 : sin ((a - b) / 2) = 0).
  { replace (a - b) with (2 * ((a - b) / 2)) in H1 by field.
    rewrite cos_2a_sin in H1. nra. }
  apply sin_eq_0_0 in H0. destruct H0 as [k Hk].
  exists k. lra.
Qed.

Lemma atan2_range (x y : R) : - PI < atan2 y x <= PI.
Proof.
  pose proof PI_RGT_0 as Hpi.
  pose proof (atan_bound (y / x)) as [Hlo Hhi].
  unfold atan2.
  destruct (Rlt_dec 0 x) as [Hpos | Hnpos]; [lra |].
  destruct (Rlt_dec x 0) as [Hneg | Hnneg].
  - destruct (Rle_dec 0 y) as [Hy | Hy].
    + assert (Hq : y / x <= 0).
      { apply (Rmult_le_reg_r (- x)); [lra |].
        replace (y / x * - x) with (- y) by (field; lra). lra. }
      assert (atan (y / x) <= 0).
      { rewrite <- atan_0. destruct Hq as [Hq | Hq].
        - left. apply atan_increasing. exact Hq.
        - rewrite Hq. lra. }
      lra.
    + assert (Hq : 0 < y / x).
      { apply (Rmult_lt_reg_r (- x)); [lra |].
        replace (y / x * - x) with (- y) by (field; lra). lra. }
      assert (0 < atan (y / x)).
      { rewrite <- atan_0. apply atan_increasing. exact Hq. }
      lra.
  - destruct (Rlt_dec 0 y); [lra |].
    destruct (Rlt_dec y 0); lra.
Qed.

(** *** Mirroring across a line through the centre *)

(** The mirror image has the same radius, and its polar angle is the
    mirrored angle up to whole turns. *)
Lemma mirror_angle (beta x y : R) :
  let x' := cos (2 * beta) * x + sin (2 * beta) * y in
  let y' := sin (2 * beta) * x - cos (2 * beta) * y in
  sqrt (x' * x' + y' * y') = sqrt (x * x + y * y) /\
  (sqrt (x * x + y * y) = 0 \/
   exists m : Z, atan2 y' x' = 2 * beta - atan2 y x + IZR m * (2 * PI)).
Proof.
  intros x' y'.
  pose proof (sin2_cos2 (2 * beta)) as Hsc. unfold Rsqr in Hsc.
  assert (Hsq : x' * x' + y' * y' = x * x + y * y).
  { unfold x', y'.
    replace ((cos (2 * beta) * x + sin (2 * beta) * y)
             * (cos (2 * beta) * x + sin (2 * beta) * y)
             + (sin (2 * beta) * x - cos (2 * beta) * y)
               * (sin (2 * beta) * x - cos (2 * beta) * y))
      with ((sin (2 * beta) * sin (2 * beta)
             + cos (2 * beta) * cos (2 * beta)) * (x * x + y * y)) by ring.
    rewrite Hsc. ring. }
  split; [rewrite Hsq; reflexivity |].
  destruct (Req_dec_T (sqrt (x * x + y * y)) 0) as [Hz | Hnz];
    [left; exact Hz | right].
  pose proof (sqrt_pos (x * x + y * y)) as Hr0.
  set (r := sqrt (x * x + y * y)) in *.
  assert (Hr : 0 < r) by lra.
  destruct (atan2_polar x y) as [Hx Hy]. fold r in Hx, Hy.
  destruct (atan2_polar x' y') as [Hx' Hy'].
  rewrite Hsq in Hx', Hy'. fold r in Hx', Hy'.
  set (theta := atan2 y x) in *. set (theta' := atan2 y' x') in *.
  apply angle_unique.
  - rewrite cos_minus. apply (Rmult_eq_reg_l r); [| lra].
    rewrite Hx'. unfold x'. rewrite <- Hx, <- Hy. ring.
  - rewrite sin_minus. apply (Rmult_eq_reg_l r); [| lra].
    rewrite Hy'. unfold y'. rewrite <- Hx, <- Hy. ring.
Qed.

(** With aspect 1, two coordinates of equal radius whose angles fold alike
    fold to the same output. *)
Lemma mainUv_mirror_by_angle (PI_literal segments beta : R) (uv : R * R) :
  let x := fst uv - 0.5 in
  let y := snd uv - 0.5 in
  let x' := cos (2 * beta) * x + sin (2 * beta) * y in
  let y' := sin (2 * beta) * x - cos (2 * beta) * y in
  (sqrt (x * x + y * y) = 0 \/
   foldAngle PI_literal segments (atan2 y' x')
   = foldAngle PI_literal segments (atan2 y x)) ->
  mainUv PI_literal segments 1 (mirror beta uv)
  = mainUv PI_literal segments 1 uv.
Proof.
  destruct uv as [u v]. simpl fst. simpl snd. intros x y x' y' Hw.
  rewrite !mainUv_R. cbv zeta.
  unfold mirror. simpl fst. simpl snd.
  rewrite !correct_R.
  destruct (Rlt_dec 1 1) as [Habs | _]; [lra |].
  simpl fst. simpl snd. fold x.
  replace ((v - 0.5) / 1) with y by (unfold y; field).
  replace (cos (2 * beta) * x + sin (2 * beta) * (v - 0.5) + 0.5 - 0.5)
    with x' by (unfold x', y; ring).
  replace ((sin (2 * beta) * x - cos (2 * beta) * (v - 0.5) + 0.5 - 0.5) / 1)
    with y' by (unfold y', y; field).
  destruct (mirror_angle beta x y) as [Hr _]. cbv zeta in Hr.
  fold x' y' in Hr.
  rewrite !length_R, Hr.
  destruct Hw as [Hz | Hw].
  - rewrite Hz, !Rmult_0_r. reflexivity.
  - rewrite Hw. reflexivity.
Qed.

(** With pi for the constant, twelve wedges make the full turn, and every
    wedge boundary is a mirror line. *)
Lemma mainUv_mirror_exact_pi (k : Z) (uv : R * R) :
  mainUv PI 12 1 (mirror (IZR k * (2 * PI / 12)) uv) = mainUv PI 12 1 uv.
Proof.
  apply mainUv_mirror_by_angle. cbv zeta.
  set (x := fst uv - 0.5). set (y := snd uv - 0.5).
  set (beta := IZR k * (2 * PI / 12)).
  destruct (mirror_angle beta x y) as [_ [Hz | [m Hm]]];
    [left; exact Hz | right].
  cbv zeta in Hm. rewrite Hm.
  assert (Hpos : 0 < 2 * PI / 12) by (pose proof PI_RGT_0; lra).
  rewrite <- (foldAngle_mirror PI 12 (atan2 y x) (k + 6 * m) Hpos).
  f_equal. rewrite plus_IZR, mult_IZR. unfold beta. field.
Qed.

(** The centre has radius 0, so the angle does not matter. *)
Lemma mainUv_center (PI_literal segments aspect : R) :
  0 < aspect -> mainUv PI_literal segments aspect (0.5, 0.5) = (0.5, 0.5).
Proof.
  intros Ha. rewrite mainUv_R. cbv zeta.
  assert (Hc : correct aspect (0.5, 0.5) = (0, 0)).
  { rewrite correct_R. destruct (Rlt_dec 1 aspect); f_equal; field; lra. }
  rewrite Hc. cbn [fst snd].
  rewrite length_R.
  replace (0 * 0 + 0 * 0) with 0 by ring. rewrite sqrt_0.
  rewrite !Rmult_0_r, uncorrect_R.
  destruct (Rlt_dec 1 aspect); f_equal; field; lra.
Qed.

Lemma PI_gt_3 : 3 < PI.
Proof. pose proof PI2_3_2. lra. Qed.

Lemma atan2_east : atan2 (0.5 - 0.5) (0.75 - 0.5) = 0.
Proof.
  unfold atan2. destruct (Rlt_dec 0 (0.75 - 0.5)) as [_ | Hn]; [| lra].
  replace ((0.5 - 0.5) / (0.75 - 0.5)) with 0 by lra.
  apply atan_0.
Qed.

(** C2: with aspect 1 and 12 segments, a coordinate and its mirror image
    across any wedge boundary (the line through the centre at an integer
    multiple of [2 pi / 12]) fold to the same output; and for every aspect
    above zero and every segment count of 2 or more the centre [(0.5, 0.5)]
    folds to exactly itself (this part for any value of the constant). *)
Theorem fold_mirror_invariance_and_center :
  (forall (k : Z) (uv : R * R),
     mainUv PI_source 12 1 (mirror (IZR k * (2 * PI / 12)) uv)
     = mainUv PI_source 12 1 uv) /\
  (forall PI_literal segments aspect,
     0 < aspect -> 2 <= segments ->
     mainUv PI_literal segments aspect (0.5, 0.5) = (0.5, 0.5)).
Proof.
  split.
  - exact mainUv_mirror_exact_pi.
  - intros PI_literal segments aspect Ha _. apply mainUv_center. exact Ha.
Qed.

Lemma fold_mirror_invariance_and_center_witness :
  mainUv PI_source 12 2 (0.5, 0.5) = (0.5, 0.5).
Proof.
  apply (proj2 fold_mirror_invariance_and_center PI_source 12 2); lra.
Defined.

End ShaderFacts.

(** ** The aspect uniform and a degenerate viewport *)

Module ViewportFacts.
Import Shader Num.

Lemma Rsgn_pos (x : R) : 0 < x -> Rsgn x = Gt.
Proof.
  intros Hx. unfold Rsgn. destruct (Rlt_dec 0 x); [reflexivity | contradiction].
Qed.

Lemma Rsgn_0 : Rsgn 0 = Eq.
Proof.
  unfold Rsgn. destruct (Rlt_dec 0 0) as [H | _]; [lra | reflexivity].
Qed.

Lemma update_zero_height (width : N) :
  update width 0 = if (0 <? width)%N then PInf else NaN.
Proof.
  unfold update, Num.div. simpl (Z.of_N 0).
  destruct (Req_dec_T 0 0) as [_ | Hn]; [| contradiction Hn; reflexivity].
  destruct (N.ltb_spec 0 width) as [Hw | Hw].
  - rewrite Rsgn_pos; [reflexivity |]. apply IZR_lt. lia.
  - assert (width = 0%N) by lia. subst width. simpl. rewrite Rsgn_0.
    reflexivity.
Qed.

Lemma update_nonzero_height (width height : N) :
  (0 < height)%N ->
  update width height = Fin (IZR (Z.of_N width) / IZR (Z.of_N height)).
Proof.
  intros Hh. unfold update, Num.div.
  destruct (Req_dec_T (IZR (Z.of_N height)) 0) as [Hz | _]; [| reflexivity].
  apply eq_IZR in Hz. lia.
Qed.

Lemma update_square (n : N) : (0 < n)%N -> update n n = Fin 1.
Proof.
  intros Hn. rewrite update_nonzero_height by exact Hn.
  f_equal. field. intros Hz. apply eq_IZR in Hz. lia.
Qed.

(** A product with an infinite or undefined radius, divided by infinity,
    is undefined. *)
Lemma mul_div_inf (c r : num) :
  r = PInf \/ r = NaN -> Num.div (Num.mul c r) PInf = NaN.
Proof.
  intros [-> | ->]; destruct c as [x | | |]; simpl; try reflexivity.
  destruct (Rsgn x); reflexivity.
Qed.

Lemma mul_nan_r (c : num) : Num.mul c NaN = NaN.
Proof. destruct c; reflexivity. Qed.

(** The radius of a finite coordinate stretched by infinity. *)
Lemma length_stretched (x y : R) :
  Shader.length (Num.mul (Fin x) PInf, Fin y) = PInf \/
  Shader.length (Num.mul (Fin x) PInf, Fin y) = NaN.
Proof.
  unfold Shader.length. simpl. destruct (Rsgn x); simpl; auto.
Qed.

(** With an infinite aspect the x output is undefined whatever the
    coordinate and the segment count. *)
Lemma mainUv_x_PInf (PI_literal : R) (segments : num) (u v : R) :
  fst (mainUv PI_literal segments PInf (Fin u, Fin v)) = NaN.
Proof.
  unfold mainUv, uncorrect, correct, center. simpl fgt. cbn iota.
  cbn [fst snd]. simpl (fsub _ _).
  match goal with
  | |- fadd (fdiv (fmul ?c ?r) _) _ = _ =>
      change (Num.add (Num.div (Num.mul c r) PInf) (Fin 0.5) = NaN);
      rewrite (mul_div_inf c r); [reflexivity |]
  end.
  apply length_stretched.
Qed.

Lemma mainUv_x_NaN (PI_literal : R) (segments : num) (u v : R) :
  fst (mainUv PI_literal segments NaN (Fin u, Fin v)) = NaN.
Proof.
  unfold mainUv, uncorrect, correct, center. simpl fgt. cbn iota.
  cbn [fst snd]. simpl (fsub _ _).
  match goal with
  | |- fadd (fmul ?c ?r) _ = _ =>
      change (Num.add (Num.mul c r) (Fin 0.5) = NaN);
      assert (Hr : r = NaN) by reflexivity;
      rewrite Hr, mul_nan_r; reflexivity
  end.
Qed.

Lemma render_zero_height_x (PI_literal segments : R) (width : N) (u v : R) :
  fst (render PI_literal segments width 0 (Fin u, Fin v)) = NaN.
Proof.
  unfold render. rewrite update_zero_height.
  destruct (0 <? width)%N; [apply mainUv_x_PInf | apply mainUv_x_NaN].
Qed.

(** *** Finite inputs: the extended fold is the real one *)

Lemma correct_fin (aspect u v : R) :
  aspect <> 0 ->
  correct (Fin aspect) (Fin u, Fin v) = inj (correct aspect (u, v)).
Proof.
  intros Ha. unfold correct, center, inj. simpl.
  destruct (Rlt_dec 1 aspect); simpl; [reflexivity |].
  destruct (Req_dec_T aspect 0); [contradiction | reflexivity].
Qed.

Lemma length_fin (x y : R) :
  Shader.length (Fin x, Fin y) = Fin (Shader.length (x, y)).
Proof.
  unfold Shader.length. simpl.
  destruct (Rlt_dec (x * x + y * y) 0) as [Hneg | _]; [nra | reflexivity].
Qed.

Lemma foldAngle_fin (PI_literal segments angle : R) :
  PI_literal <> 0 -> segments <> 0 ->
  foldAngle PI_literal (Fin segments) (Fin angle)
  = Fin (foldAngle PI_literal segments angle).
Proof.
  intros Hpi Hseg. unfold foldAngle, segmentAngle, mod_. simpl.
  destruct (Req_dec_T segments 0) as [Hz | _]; [contradiction |]. simpl.
  destruct (Req_dec_T (2 * PI_literal / segments * 2) 0) as [Hz | _].
  - exfalso. apply Hpi.
    assert (H : 2 * PI_literal / segments * 2 * segments = 0)
      by (rewrite Hz; ring).
    replace (2 * PI_literal / segments * 2 * segments)
      with (4 * PI_literal) in H by (field; exact Hseg).
    lra.
  - simpl. destruct (Rlt_dec _ _); reflexivity.
Qed.

Lemma uncorrect_fin (aspect x y : R) :
  aspect <> 0 ->
  uncorrect (Fin aspect) (Fin x, Fin y) = inj (uncorrect aspect (x, y)).
Proof.
  intros Ha. unfold uncorrect, center, inj. simpl.
  destruct (Rlt_dec 1 aspect); simpl; [| reflexivity].
  destruct (Req_dec_T aspect 0); [contradiction | reflexivity].
Qed.

Lemma mainUv_fin (PI_literal segments aspect u v : R) :
  PI_literal <> 0 -> segments <> 0 -> aspect <> 0 ->
  mainUv PI_literal (Fin segments) (Fin aspect) (Fin u, Fin v)
  = inj (mainUv PI_literal segments aspect (u, v)).
Proof.
  intros Hpi Hseg Ha. unfold mainUv.
  rewrite correct_fin by exact Ha.
  destruct (correct aspect (u, v)) as [x y].
  change (inj (x, y)) with (Fin x, Fin y).
  cbn [fst snd].
  rewrite !length_fin.
  change (fatan (Fin y) (Fin x)) with (Fin (atan2 y x)).
  rewrite !foldAngle_fin by assumption.
  exact (uncorrect_fin aspect
           (Rtrigo_def.cos (foldAngle PI_literal segments (atan2 y x))
            * Shader.length (x, y))
           (Rtrigo_def.sin (foldAngle PI_literal segments (atan2 y x))
            * Shader.length (x, y)) Ha).
Qed.

(** On a canvas 800 wide and 0 high the fold is not the fold of aspect 1:
    its x output is undefined, while aspect 1 leaves a finite one. *)
Lemma degenerate_viewport_counterexample :
  render PI_source 12 800 0 (Fin 0.75, Fin 0.5)
  <> mainUv PI_source (Fin 12) (Fin 1) (Fin 0.75, Fin 0.5).
Proof.
  intros Heq. apply (f_equal fst) in Heq.
  rewrite render_zero_height_x in Heq.
  rewrite mainUv_fin in Heq; [| exact PI_neq0 | lra | lra].
  unfold inj in Heq. cbn [fst] in Heq. discriminate Heq.
Qed.

(** C1, as the code has it: [update] stores [width / height] with no guard.
    On a viewport of height zero the aspect uniform is plus infinity when the
    width is positive and NaN when it is zero, never 1, and the x output of
    the fold is then NaN for every finite coordinate and every segment count.
    For a height above zero the uniform is the finite quotient, and on a
    square viewport the fold is the fold of aspect 1. *)
Theorem degenerate_viewport_unguarded :
  (forall width, update width 0 = if (0 <? width)%N then PInf else NaN) /\
  (forall width, update width 0 <> Fin 1) /\
  (forall PI_literal segments width u v,
     fst (render PI_literal segments width 0 (Fin u, Fin v)) = NaN) /\
  (forall width height, (0 < height)%N ->
     update width height = Fin (IZR (Z.of_N width) / IZR (Z.of_N height))) /\
  (forall PI_literal segments n uv, (0 < n)%N ->
     render PI_literal segments n n uv
     = mainUv PI_literal (Fin segments) (Fin 1) uv).
Proof.
  split; [exact update_zero_height |].
  split.
  { intros width. rewrite update_zero_height.
    destruct (0 <? width)%N; discriminate. }
  split; [exact render_zero_height_x |].
  split; [exact update_nonzero_height |].
  intros PI_literal segments n uv Hn. unfold render.
  rewrite update_square by exact Hn. reflexivity.
Qed.

Lemma degenerate_viewport_unguarded_witness :
  update 800 600 = Fin (IZR (Z.of_N 800) / IZR (Z.of_N 600)) /\
  render PI_source 12 600 600 (Fin 0.25, Fin 0.75)
  = mainUv PI_source (Fin 12) (Fin 1) (Fin 0.25, Fin 0.75).
Proof.
  destruct degenerate_viewport_unguarded as (_ & _ & _ & Hq & Hsq).
  split.
  - apply (Hq 800%N 600%N). reflexivity.
  - apply (Hsq PI_source 12 600%N). reflexivity.
Defined.

End ViewportFacts.

(** * Further properties *)

(** ** The audio level of a spectrum *)

Module AudioExtra.
Import Js Audio AudioFacts Frames.

Lemma reduce_sum_acc (arr : list Z) (acc : R) :
  fold_left (fun a b => a + IZR b) arr acc = acc + reduce_sum arr.
Proof.
  unfold reduce_sum. revert acc.
  induction arr as [| b arr IH]; intros acc; simpl.
  - lra.
  - rewrite IH, (IH (0 + IZR b)). lra.
Qed.

Lemma reduce_sum_cons (b : Z) (arr : list Z) :
  reduce_sum (b :: arr) = IZR b + reduce_sum arr.
Proof.
  unfold reduce_sum at 1. simpl. rewrite reduce_sum_acc. lra.
Qed.

Lemma reduce_sum_bounds (arr : list Z) :
  bytes arr -> 0 <= reduce_sum arr <= 255 * INR (length arr).
Proof.
  induction 1 as [| b arr [Hb0 Hb255] _ IH].
  - unfold reduce_sum. simpl. lra.
  - rewrite reduce_sum_cons. change (length (b :: arr)) with (S (length arr)).
    rewrite S_INR.
    apply IZR_le in Hb0, Hb255. lra.
Qed.

Lemma average_some (arr : list Z) :
  arr <> [] ->
  average arr = Some (reduce_sum arr / INR (length arr)) /\
  0 < INR (length arr).
Proof.
  intros Hne. unfold average.
  destruct arr as [| b arr]; [contradiction Hne; reflexivity |].
  split; [reflexivity |]. apply lt_0_INR. simpl. lia.
Qed.

Lemma average_bounds (arr : list Z) :
  arr <> [] -> bytes arr ->
  0 <= reduce_sum arr / INR (length arr) <= 255.
Proof.
  intros Hne Hb.
  destruct (average_some arr Hne) as [_ Hlen].
  pose proof (reduce_sum_bounds arr Hb) as [H0 H255].
  split.
  - apply (Rmult_le_reg_r (INR (length arr))); [exact Hlen |].
    replace (reduce_sum arr / INR (length arr) * INR (length arr))
      with (reduce_sum arr) by (field; lra).
    lra.
  - apply (Rmult_le_reg_r (INR (length arr))); [exact Hlen |].
    replace (reduce_sum arr / INR (length arr) * INR (length arr))
      with (reduce_sum arr) by (field; lra).
    lra.
Qed.

Lemma level_range (arr : list Z) :
  arr <> [] -> bytes arr ->
  exists level, updateAudioData arr = Some level /\ 0 <= level <= 1.
Proof.
  intros Hne Hb.
  destruct (average_some arr Hne) as [Havg _].
  pose proof (average_bounds arr Hne Hb) as Hrange.
  exists (boost (reduce_sum arr / INR (length arr))).
  split.
  - unfold updateAudioData. rewrite Havg. reflexivity.
  - split.
    + unfold boost, boosted, normalized. apply Math_pow_nonneg. lra.
    + rewrite <- boost_255. apply boost_le; lra.
Qed.

(** X1: on a non-empty array of bytes the update yields an audio level, and
    the level lies in [0, 1]. *)
Theorem updateAudioData_level_range (arr : list Z) :
  arr <> [] -> bytes arr ->
  exists level, updateAudioData arr = Some level /\ 0 <= level <= 1.
Proof. exact (level_range arr). Qed.


Lemma updateAudioData_level_range_witness :
  exists level,
    updateAudioData [0%Z; 128%Z; 255%Z] = Some level /\ 0 <= level <= 1.
Proof.
  apply (updateAudioData_level_range [0%Z; 128%Z; 255%Z]).
  - discriminate.
  - repeat constructor; lia.
Defined.

Lemma Math_pow_pos_lt (x y : R) : 0 < x -> 0 < Math_pow x y.
Proof.
  intros Hx. rewrite Math_pow_pos by exact Hx. unfold Rpower. apply exp_pos.
Qed.

Lemma reduce_sum_zero_iff (arr : list Z) :
  bytes arr -> (reduce_sum arr = 0 <-> Forall (fun b => b = 0%Z) arr).
Proof.
  induction 1 as [| b arr [Hb0 Hb255] Hrest IH].
  - split; [constructor | reflexivity].
  - rewrite reduce_sum_cons.
    pose proof (reduce_sum_bounds arr Hrest) as [Hs0 _].
    assert (Hb : 0 <= IZR b) by (apply IZR_le in Hb0; exact Hb0).
    split.
    + intros Hsum. constructor.
      * apply eq_IZR. lra.
      * apply IH. lra.
    + intros Hall. inversion Hall as [| ? ? Hbz Hall']; subst.
      apply IH in Hall'. simpl. lra.
Qed.

(** X2: on a non-empty array of bytes the audio level is 0 exactly when
    every bin is 0: any sound at all gives a positive level. *)
Theorem updateAudioData_silent_iff (arr : list Z) :
  arr <> [] -> bytes arr ->
  (updateAudioData arr = Some 0 <-> Forall (fun b => b = 0%Z) arr).
Proof.
  intros Hne Hb.
  destruct (average_some arr Hne) as [Havg Hlen].
  pose proof (average_bounds arr Hne Hb) as [Hlo _].
  rewrite <- (reduce_sum_zero_iff arr Hb).
  unfold updateAudioData. rewrite Havg. simpl.
  split.
  - intros Heq. injection Heq as Heq.
    destruct (Req_dec_T (reduce_sum arr) 0) as [Hz | Hnz]; [exact Hz |].
    exfalso.
    assert (Hpos : 0 < reduce_sum arr / INR (length arr) / 255).
    { pose proof (reduce_sum_bounds arr Hb) as [Hs0 _].
      apply Rdiv_lt_0_compat; [| lra].
      apply Rdiv_lt_0_compat; lra. }
    pose proof (Math_pow_pos_lt _ 0.6 Hpos) as Hp.
    unfold boost, boosted, normalized in Heq. lra.
  - intros Hz. rewrite Hz.
    replace (0 / INR (length arr)) with 0
      by (unfold Rdiv; rewrite Rmult_0_l; reflexivity).
    rewrite boost_0. reflexivity.
Qed.

Lemma updateAudioData_silent_iff_witness :
  updateAudioData [0%Z; 0%Z] = Some 0
  <-> Forall (fun b => b = 0%Z) [0%Z; 0%Z].
Proof.
  apply (updateAudioData_silent_iff [0%Z; 0%Z]).
  - discriminate.
  - repeat constructor; lia.
Defined.

Lemma reduce_sum_le (a b : list Z) :
  Forall2 Z.le a b -> reduce_sum a <= reduce_sum b.
Proof.
  induction 1 as [| x y a b Hxy _ IH].
  - lra.
  - rewrite !reduce_sum_cons. apply IZR_le in Hxy. lra.
Qed.

(** X3: a spectrum that is louder in every bin gives an audio level at least
    as high. *)
Theorem updateAudioData_monotone (a b : list Z) :
  a <> [] -> bytes a -> Forall2 Z.le a b ->
  exists la lb,
    updateAudioData a = Some la /\ updateAudioData b = Some lb /\ la <= lb.
Proof.
  intros Hne Ha Hab.
  assert (Hlen : length a = length b) by (eapply Forall2_length; exact Hab).
  assert (Hneb : b <> []).
  { intros ->. destruct a; [contradiction Hne; reflexivity | discriminate]. }
  destruct (average_some a Hne) as [Hava Hla].
  destruct (average_some b Hneb) as [Havb Hlb].
  pose proof (average_bounds a Hne Ha) as [Ha0 _].
  pose proof (reduce_sum_le a b Hab) as Hsum.
  exists (boost (reduce_sum a / INR (length a))),
         (boost (reduce_sum b / INR (length b))).
  unfold updateAudioData. rewrite Hava, Havb.
  split; [reflexivity |]. split; [reflexivity |].
  apply boost_le; [exact Ha0 |].
  rewrite <- Hlen. unfold Rdiv.
  apply Rmult_le_compat_r; [| exact Hsum].
  left. apply Rinv_0_lt_compat. exact Hla.
Qed.

Lemma updateAudioData_monotone_witness :
  exists la lb,
    updateAudioData [10%Z; 20%Z] = Some la /\
    updateAudioData [10%Z; 200%Z] = Some lb /\ la <= lb.
Proof.
  apply (updateAudioData_monotone [10%Z; 20%Z] [10%Z; 200%Z]).
  - discriminate.
  - repeat constructor; lia.
  - repeat constructor; lia.
Defined.

End AudioExtra.

(** ** Frames of a cube *)

Module CubeExtra.
Import Js Cube CubeFacts Frames.

(** *** The callback on the cubes of [RotatingCubes] *)

Lemma cube_frame_defined (index : Z) (level : R) (data : list Z)
  (time delta : R) (s : State) :
  (0 <= index < cubeCount)%Z ->
  exists s', useFrame (cubeProps level data index) time delta s = Some s'.
Proof.
  intros Hi. destruct data as [| b data].
  - eexists. apply useFrame_hold. left. reflexivity.
  - destruct (typed_get_in_range (b :: data)
                (freqIndex index (Datatypes.length (b :: data))))
      as [byte Hbyte].
    { apply freqIndex_bounds; [exact Hi | simpl; lia]. }
    eexists.
    apply (useFrame_react (cubeProps level (b :: data) index) (b :: data) byte);
      [reflexivity | exact Hbyte].
Qed.

(** X4: the callback never reads outside the spectrum on the cubes
    [RotatingCubes] creates: for an index in 0..19, any run of frames, with
    whatever audio levels and spectra (of any length), yields a state. *)
Theorem rotating_cube_run_defined (index : Z) (fs : list Frame) (s : State) :
  (0 <= index < cubeCount)%Z ->
  Forall (fun f => exists level data,
            props f = cubeProps level data index) fs ->
  exists s', run fs s = Some s'.
Proof.
  intros Hi Hfs. revert s.
  induction Hfs as [| f fs (level & data & Hp) _ IH]; intros s.
  - exists s. reflexivity.
  - simpl. rewrite Hp.
    destruct (cube_frame_defined index level data (time f) (delta f) s Hi)
      as [s1 Hs1].
    rewrite Hs1. apply IH.
Qed.

Lemma rotating_cube_run_defined_witness :
  exists s',
    run [cubeFrame 19 0.5 [1%Z; 2%Z; 3%Z] 0 0.016;
         cubeFrame 19 0.7 [] 0.016 0.016] initial = Some s'.
Proof.
  apply (rotating_cube_run_defined 19).
  - unfold cubeCount. lia.
  - repeat constructor.
    + exists 0.5, [1%Z; 2%Z; 3%Z]. reflexivity.
    + exists 0.7, []. reflexivity.
Defined.

(** *** The smoothed values stay in range *)

Lemma smooth_in_interval (lo hi x T : R) :
  lo <= x <= hi -> lo <= T <= hi -> lo <= smooth x T <= hi.
Proof.
  intros Hx HT. unfold smooth, smoothingFactor. lra.
Qed.

Lemma frequency_range (byte : Z) :
  (0 <= byte <= 255)%Z -> 0 <= frequency byte <= 1.
Proof.
  intros [H0 H255]. apply IZR_le in H0, H255. unfold frequency. lra.
Qed.

Lemma typed_get_In (arr : list Z) (i byte : Z) :
  typed_get arr i = Some byte -> In byte arr.
Proof.
  unfold typed_get. destruct (i <? 0)%Z; [discriminate |].
  apply nth_error_In.
Qed.

Lemma react_steady (byte : Z) (s : State) :
  (0 <= byte <= 255)%Z -> steady s -> steady (react byte s).
Proof.
  intros Hb (Hsc & Hra & _ & _).
  pose proof (frequency_range byte Hb) as Hf.
  unfold steady, react. cbv zeta. simpl.
  split; [| split; [| split; reflexivity]].
  - apply smooth_in_interval; [exact Hsc |]. unfold targetScale. lra.
  - apply smooth_in_interval; [exact Hra |].
    unfold targetRadius, baseRadius, maxRadius. lra.
Qed.

Lemma useFrame_steady (p : Props) (time delta : R) (s s' : State) :
  (forall arr, frequencyData p = Some arr -> bytes arr) ->
  steady s -> useFrame p time delta s = Some s' -> steady s'.
Proof.
  intros Hb Hs. unfold useFrame.
  destruct (frequencyData p) as [arr |] eqn:Hd.
  - destruct (0 <? Datatypes.length arr)%nat.
    + destruct (typed_get arr (freqIndex (index p) (Datatypes.length arr)))
        as [byte |] eqn:Hg; [| discriminate].
      intros Heq. injection Heq as <-.
      apply react_steady; [| exact Hs].
      apply typed_get_In in Hg.
      specialize (Hb arr eq_refl). unfold bytes in Hb.
      rewrite Forall_forall in Hb. apply Hb. exact Hg.
    + intros Heq. injection Heq as <-. exact Hs.
  - intros Heq. injection Heq as <-. exact Hs.
Qed.

Lemma initial_steady : steady initial.
Proof. unfold steady, initial. simpl. lra. Qed.

(** X5: whatever byte spectra the frames bring, after any run of frames from
    the state at mount the smoothed scale is in [1, 1.6], the smoothed tube
    radius in [0.015, 0.06], and the scale and the tube radius shown are
    these smoothed values; in particular the tube radius stays positive. *)
Theorem run_keeps_steady (fs : list Frame) (s' : State) :
  byteFrames fs -> run fs initial = Some s' ->
  steady s' /\ 0 < tubeRadius s' /\ 0 < scale s'.
Proof.
  intros Hfs Hrun.
  assert (Hst : steady s').
  { pose proof initial_steady as H0. revert Hrun H0.
    generalize initial as s. unfold byteFrames in Hfs.
    induction Hfs as [| f fs Hf _ IH]; intros s Hrun Hs; simpl in Hrun.
    - injection Hrun as <-. exact Hs.
    - destruct (useFrame (props f) (time f) (delta f) s) as [s1 |] eqn:Hu;
        [| discriminate].
      apply (IH s1 Hrun). exact (useFrame_steady _ _ _ _ _ Hf Hs Hu). }
  split; [exact Hst |].
  destruct Hst as (Hsc & Hra & Heq1 & Heq2). rewrite Heq1, Heq2. lra.
Qed.

Lemma run_keeps_steady_witness :
  steady (react 255 (rotate (cubeProps 1 [255%Z] 0) 0 0.016 initial)) /\
  0 < tubeRadius (react 255 (rotate (cubeProps 1 [255%Z] 0) 0 0.016 initial)) /\
  0 < scale (react 255 (rotate (cubeProps 1 [255%Z] 0) 0 0.016 initial)).
Proof.
  apply (run_keeps_steady [cubeFrame 0 1 [255%Z] 0 0.016]).
  - repeat constructor. simpl. intros arr Heq. injection Heq as <-.
    repeat constructor; lia.
  - simpl. unfold useFrame. simpl.
    unfold typed_get, freqIndex, Math_floor. simpl.
    replace (0 / 20 * 1) with (IZR 0) by lra.
    rewrite ZfloorZ. reflexivity.
Defined.

(** *** The three rotation axes *)

Lemma useFrame_axes (p : Props) (time delta : R) (s s' : State) :
  useFrame p time delta s = Some s' ->
  rotation_x s' - rotation_x s = rotation_y s' - rotation_y s /\
  rotation_y s' - rotation_y s = rotation_z s' - rotation_z s.
Proof.
  unfold useFrame.
  destruct (frequencyData p) as [arr |].
  - destruct (0 <? Datatypes.length arr)%nat.
    + destruct (typed_get arr _); [| discriminate].
      intros Heq. injection Heq as <-. simpl. lra.
    + intros Heq. injection Heq as <-. simpl. lra.
  - intros Heq. injection Heq as <-. simpl. lra.
Qed.

(** X6: the three rotation angles move together: after any run of frames
    from the state at mount they are equal. *)
Theorem run_keeps_axes_equal (fs : list Frame) (s' : State) :
  run fs initial = Some s' ->
  rotation_x s' = rotation_y s' /\ rotation_y s' = rotation_z s'.
Proof.
  assert (H0 : rotation_x initial = rotation_y initial /\
               rotation_y initial = rotation_z initial) by (simpl; lra).
  revert H0. generalize initial as s.
  induction fs as [| f fs IH]; intros s Hs Hrun; simpl in Hrun.
  - injection Hrun as <-. exact Hs.
  - destruct (useFrame (props f) (time f) (delta f) s) as [s1 |] eqn:Hu;
      [| discriminate].
    apply (IH s1); [| exact Hrun].
    pose proof (useFrame_axes _ _ _ _ _ Hu). lra.
Qed.

Lemma run_keeps_axes_equal_witness :
  rotation_x (rotate (cubeProps 1 [] 3) 7 0.016 initial)
  = rotation_y (rotate (cubeProps 1 [] 3) 7 0.016 initial) /\
  rotation_y (rotate (cubeProps 1 [] 3) 7 0.016 initial)
  = rotation_z (rotate (cubeProps 1 [] 3) 7 0.016 initial).
Proof.
  apply (run_keeps_axes_equal [cubeFrame 3 1 [] 7 0.016]).
  reflexivity.
Defined.

(** *** Convergence of the smoother *)

Lemma smooth_n_distance (k : nat) (x T : R) :
  Rabs (smooth_n k x T - T) = Rabs (x - T) * Rabs (0.9 ^ k).
Proof.
  rewrite smooth_n_closed. unfold smoothingFactor.
  replace (T - (T - x) * (1 - 0.1) ^ k - T) with ((x - T) * 0.9 ^ k).
  - apply Rabs_mult.
  - replace (1 - 0.1) with 0.9 by lra. ring.
Qed.

(** X7: held at one target, the smoothed value converges to it: it comes
    within any positive distance after enough updates and stays there. *)
Theorem smoother_converges (x T eps : R) :
  0 < eps ->
  exists K : nat, forall k : nat,
    (K <= k)%nat -> Rabs (smooth_n k x T - T) < eps.
Proof.
  intros Heps.
  destruct (Req_dec_T x T) as [-> | Hne].
  - exists O. intros k _. rewrite smooth_n_distance.
    replace (T - T) with 0 by ring. rewrite Rabs_R0. lra.
  - assert (Hd : 0 < Rabs (x - T)) by (apply Rabs_pos_lt; lra).
    assert (H9 : Rabs 0.9 < 1) by (rewrite Rabs_right; lra).
    destruct (pow_lt_1_zero 0.9 H9 (eps / Rabs (x - T))) as [K HK].
    { apply Rdiv_lt_0_compat; assumption. }
    exists K. intros k Hk. rewrite smooth_n_distance.
    specialize (HK k ltac:(lia)).
    apply (Rmult_lt_compat_l (Rabs (x - T))) in HK; [| exact Hd].
    replace (Rabs (x - T) * (eps / Rabs (x - T))) with eps in HK
      by (field; lra).
    exact HK.
Qed.

Lemma smoother_converges_witness :
  exists K : nat, forall k : nat,
    (K <= k)%nat -> Rabs (smooth_n k 1 1.6 - 1.6) < 0.001.
Proof.
  apply (smoother_converges 1 1.6 0.001). lra.
Defined.

(** *** The effective speed *)

(** X8: with a rotation speed that is not negative and an audio level in
    [0, 1], the effective speed lies between
    [rotationSpeed * (2 * audioLevel - 1)] and
    [rotationSpeed * (2 * audioLevel + 1)]; from an audio level of one half
    on, the cube never turns backwards. *)
Theorem effectiveSpeed_bounds (rotationSpeed time audioLevel : R) (index : Z) :
  0 <= rotationSpeed -> 0 <= audioLevel <= 1 ->
  rotationSpeed * (2 * audioLevel - 1)
    <= effectiveSpeed rotationSpeed time audioLevel index
    <= rotationSpeed * (2 * audioLevel + 1) /\
  (0.5 <= audioLevel ->
   0 <= effectiveSpeed rotationSpeed time audioLevel index).
Proof.
  intros Hrs _.
  unfold effectiveSpeed, baseSpeed, audioBoostSpeed, speedModulation.
  set (a := time / oscillationPeriod audioLevel * PI * 2 + phase index).
  pose proof (SIN_bound a) as [Hlo Hhi].
  split; [split; nra |].
  intros Hlevel. nra.
Qed.

Lemma effectiveSpeed_bounds_witness :
  0 <= effectiveSpeed (cubeRotationSpeed 4) 50 0.75 4.
Proof.
  apply (effectiveSpeed_bounds (cubeRotationSpeed 4) 50 0.75 4).
  - left. apply cubeRotationSpeed_pos. lia.
  - lra.
  - lra.
Defined.

(** *** Bands *)

Lemma freqIndex_le (i j : Z) (len : nat) :
  (i <= j)%Z -> (freqIndex i len <= freqIndex j len)%Z.
Proof.
  intros Hij. unfold freqIndex, Math_floor. apply Zfloor_le.
  apply IZR_le in Hij. pose proof (pos_INR len). nra.
Qed.

Lemma freqIndex_lt (i j : Z) (len : nat) :
  (20 <= len)%nat -> (i < j)%Z -> (freqIndex i len < freqIndex j len)%Z.
Proof.
  intros Hlen Hij. unfold freqIndex, Math_floor.
  assert (HL : 20 <= INR len).
  { replace 20 with (INR 20) by (simpl; lra). apply le_INR. exact Hlen. }
  assert (Hstep : IZR i + 1 <= IZR j).
  { rewrite <- plus_IZR. apply IZR_le. lia. }
  pose proof (Zfloor_bound (IZR i / 20 * INR len)) as [_ Hhi].
  assert (Hle : (Zfloor (IZR i / 20 * INR len) + 1
                 <= Zfloor (IZR j / 20 * INR len))%Z); [| lia].
  apply Zfloor_lub. rewrite plus_IZR.
  pose proof (Zfloor_bound (IZR i / 20 * INR len)) as [Hlo _].
  nra.
Qed.

(** X9: the band read by a cube does not decrease with its index, and when
    the spectrum has at least 20 bins (the analyser gives 64) cubes with
    different indices read different bins. *)
Theorem bands_increase_with_index (i j : Z) (len : nat) :
  (i < j)%Z ->
  (freqIndex i len <= freqIndex j len)%Z /\
  ((20 <= len)%nat -> (freqIndex i len < freqIndex j len)%Z).
Proof.
  intros Hij. split.
  - apply freqIndex_le. lia.
  - intros Hlen. apply freqIndex_lt; assumption.
Qed.

Lemma bands_increase_with_index_witness :
  (freqIndex 3 64 < freqIndex 4 64)%Z.
Proof.
  apply (proj2 (bands_increase_with_index 3 4 64 ltac:(lia))). lia.
Defined.

(** *** The props of the cubes *)

(** X10: along the indices 0..19 the sizes, hues and rotation speeds of the
    cubes strictly increase; every size and speed is positive and every hue
    lies in [0, 360). *)
Theorem cube_props_increase (i j : Z) (level : R) (data : list Z) :
  (0 <= i < j)%Z -> (j < cubeCount)%Z ->
  let p := cubeProps level data i in
  let q := cubeProps level data j in
  0 < size p < size q /\
  0 <= hue p < hue q /\ hue q < 360 /\
  0 < rotationSpeed p < rotationSpeed q.
Proof.
  intros [Hi Hij] Hj. unfold cubeCount in Hj.
  assert (H0 : 0 <= IZR i) by (apply IZR_le in Hi; exact Hi).
  assert (H1 : IZR i < IZR j) by (apply IZR_lt; exact Hij).
  assert (H2 : IZR j <= 19) by (apply (IZR_le j 19); lia).
  simpl.
  unfold cubeRotationSpeed, startSize, sizeIncrement, startHue, hueIncrement,
    startRotationSpeed, rotationSpeedIncrement, cubeCount.
  repeat split; lra.
Qed.

Lemma cube_props_increase_witness :
  0 < size (cubeProps 0 [] 0) < size (cubeProps 0 [] 19) /\
  0 <= hue (cubeProps 0 [] 0) < hue (cubeProps 0 [] 19) /\
  hue (cubeProps 0 [] 19) < 360 /\
  0 < rotationSpeed (cubeProps 0 [] 0) < rotationSpeed (cubeProps 0 [] 19).
Proof.
  apply (cube_props_increase 0 19 0 []); unfold cubeCount; lia.
Defined.

(** *** Phases *)

(** X11: cubes ten indices apart oscillate in opposition: at every time and
    audio level the speed modulation of cube [i + 10] is the opposite of the
    one of cube [i]. *)
Theorem opposite_cubes_oscillate_in_opposition
  (time audioLevel : R) (i : Z) :
  speedModulation time audioLevel (i + 10)
  = - speedModulation time audioLevel i.
Proof.
  unfold speedModulation, phase. rewrite plus_IZR.
  generalize (time / oscillationPeriod audioLevel). intros q.
  replace (q * PI * 2 + (IZR i + 10) / 20 * PI * 2)
    with (q * PI * 2 + IZR i / 20 * PI * 2 + PI) by field.
  apply neg_sin.
Qed.

(** X12: at a fixed audio level in [0, 1] the speed modulation is periodic
    in time, with the oscillation period as its period. *)
Theorem speedModulation_periodic (time audioLevel : R) (i : Z) :
  0 <= audioLevel <= 1 ->
  speedModulation (time + oscillationPeriod audioLevel) audioLevel i
  = speedModulation time audioLevel i.
Proof.
  intros Hl.
  assert (Hp : oscillationPeriod audioLevel <> 0).
  { unfold oscillationPeriod, audioPeriodReduction, basePeriod, minPeriod.
    nra. }
  unfold speedModulation.
  replace ((time + oscillationPeriod audioLevel)
           / oscillationPeriod audioLevel * PI * 2 + phase i)
    with (time / oscillationPeriod audioLevel * PI * 2 + phase i + 2 * PI)
    by (field; exact Hp).
  rewrite sin_plus, sin_2PI, cos_2PI. ring.
Qed.

Lemma speedModulation_periodic_witness :
  speedModulation (7 + oscillationPeriod 0.5) 0.5 3
  = speedModulation 7 0.5 3.
Proof.
  apply (speedModulation_periodic 7 0.5 3). lra.
Defined.

End CubeExtra.

(** ** The wireframe *)

Module EdgesFacts.
Import Edges.

Lemma sqrt_square_abs (a : R) : sqrt (a * a) = Rabs a.
Proof. fold (Rsqr a). apply sqrt_Rsqr_abs. Qed.

Ltac edge_length :=
  unfold length, direction, vx, vy, vz; cbn [fst snd];
  rewrite <- sqrt_square_abs; f_equal; field.

(** X13: each of the twelve edges joins two corners of the cube, runs along
    one coordinate axis, and has the size of the cube (in absolute value) as
    its length, which is the height given to its cylinder. *)
Theorem edges_span_cube (size : R) (edge : vec3 * vec3) :
  In edge (edges size) ->
  corner size (fst edge) /\
  corner size (snd edge) /\
  length (direction edge) = Rabs size /\
  let d := direction edge in
  (Rabs (vx d) = Rabs size /\ vy d = 0 /\ vz d = 0) \/
  (vx d = 0 /\ Rabs (vy d) = Rabs size /\ vz d = 0) \/
  (vx d = 0 /\ vy d = 0 /\ Rabs (vz d) = Rabs size).
Proof.
  intros Hin. unfold edges in Hin. cbv zeta in Hin.
  assert (Hneg : Rabs (- (size / 2) - size / 2) = Rabs size).
  { replace (- (size / 2) - size / 2) with (- size) by field.
    apply Rabs_Ropp. }
  assert (Hpos : Rabs (size / 2 - - (size / 2)) = Rabs size).
  { f_equal. field. }
  assert (Hz1 : size / 2 - size / 2 = 0) by ring.
  assert (Hz2 : - (size / 2) - - (size / 2) = 0) by ring.
  simpl in Hin.
  repeat (destruct Hin as [<- | Hin]);
    try contradiction;
    (split; [unfold corner, vx, vy, vz; cbn [fst snd]; tauto |]);
    (split; [unfold corner, vx, vy, vz; cbn [fst snd]; tauto |]);
    (split; [edge_length |]);
    unfold direction, vx, vy, vz; cbn [fst snd];
    rewrite ?Hz1, ?Hz2, ?Hneg, ?Hpos; tauto.
Qed.

Lemma edges_span_cube_witness :
  length (direction ((- (2 / 2), - (2 / 2), - (2 / 2)),
                     (2 / 2, - (2 / 2), - (2 / 2)))) = Rabs 2.
Proof.
  apply (edges_span_cube 2). left. reflexivity.
Defined.

Ltac edges_differ H :=
  repeat (destruct H as [H | H]);
  try contradiction;
  injection H; intros; lra.

(** X14: for a size other than zero the list holds twelve edges, no two of
    them the same. *)
Theorem edges_twelve_distinct (size : R) :
  size <> 0 ->
  Datatypes.length (edges size) = 12%nat /\ NoDup (edges size).
Proof.
  intros Hsize. split; [reflexivity |].
  unfold edges. cbv zeta.
  repeat (constructor; [simpl; intros H; edges_differ H |]).
  constructor.
Qed.

Lemma edges_twelve_distinct_witness :
  Datatypes.length (edges 1) = 12%nat /\ NoDup (edges 1).
Proof.
  apply (edges_twelve_distinct 1). lra.
Defined.

End EdgesFacts.

(** ** The background *)

Module BackgroundFacts.
Import Background.

Lemma clamp01_range (x : R) : 0 <= clamp x 0 1 <= 1.
Proof.
  unfold clamp, Rmin, Rmax.
  destruct (Rle_dec x 0); destruct (Rle_dec _ 1); lra.
Qed.

Lemma clamp01_le (x y : R) : x <= y -> clamp x 0 1 <= clamp y 0 1.
Proof.
  intros Hxy. unfold clamp, Rmin, Rmax.
  destruct (Rle_dec x 0); destruct (Rle_dec y 0);
    repeat match goal with |- context [Rle_dec ?a ?b] =>
      destruct (Rle_dec a b) end; lra.
Qed.

Lemma hermite_range (t : R) : 0 <= t <= 1 -> 0 <= t * t * (3 - 2 * t) <= 1.
Proof.
  intros [H0 H1]. split.
  - apply Rmult_le_pos; [apply Rmult_le_pos; assumption | lra].
  - assert (0 <= (1 - t) * (1 - t) * (1 + 2 * t)).
    { apply Rmult_le_pos; [apply Rmult_le_pos; lra | lra]. }
    lra.
Qed.

Lemma hermite_le (s t : R) :
  0 <= s -> s <= t -> t <= 1 ->
  s * s * (3 - 2 * s) <= t * t * (3 - 2 * t).
Proof.
  intros Hs Hst Ht.
  assert (H : 0 <= (t - s) * (3 * (s + t) - 2 * (s * s + s * t + t * t))).
  { apply Rmult_le_pos; [lra |]. nra. }
  lra.
Qed.

Lemma hermite_lt_1 (t : R) : 0 <= t < 1 -> t * t * (3 - 2 * t) < 1.
Proof.
  intros [H0 H1].
  assert (0 < (1 - t) * (1 - t) * (1 + 2 * t)).
  { apply Rmult_lt_0_compat; [apply Rmult_lt_0_compat; lra | lra]. }
  lra.
Qed.

Lemma smoothstep01_le (x y : R) :
  x <= y -> smoothstep 0 1 x <= smoothstep 0 1 y.
Proof.
  intros Hxy. unfold smoothstep. cbv zeta.
  replace ((x - 0) / (1 - 0)) with x by field.
  replace ((y - 0) / (1 - 0)) with y by field.
  pose proof (clamp01_range x) as [Hx0 _].
  pose proof (clamp01_range y) as [_ Hy1].
  apply hermite_le; [exact Hx0 | apply clamp01_le; exact Hxy | exact Hy1].
Qed.

Lemma blend_range (vUv : R * R) : 0 <= blend vUv <= 1.
Proof.
  unfold blend, smoothstep. cbv zeta. apply hermite_range, clamp01_range.
Qed.

Lemma distance_unit_square (u v : R) :
  0 <= u <= 1 -> 0 <= v <= 1 -> 0 <= distance (u, v) (0.5, 0.5) < 1.
Proof.
  intros Hu Hv. unfold distance. cbn [fst snd].
  split; [apply sqrt_pos |].
  assert (Hu2 : 0 <= u * (1 - u)) by (apply Rmult_le_pos; lra).
  assert (Hv2 : 0 <= v * (1 - v)) by (apply Rmult_le_pos; lra).
  assert (Hu3 : (u - 0.5) * (u - 0.5) = 0.25 - u * (1 - u)) by nra.
  assert (Hv3 : (v - 0.5) * (v - 0.5) = 0.25 - v * (1 - v)) by nra.
  pose proof (Rle_0_sqr (u - 0.5)) as Hu4.
  pose proof (Rle_0_sqr (v - 0.5)) as Hv4.
  unfold Rsqr in Hu4, Hv4.
  rewrite <- sqrt_1. apply sqrt_lt_1_alt. split; lra.
Qed.

(** X15: the blend factor of the background lies in [0, 1]; it does not
    decrease with the distance of the fragment from the centre; and inside
    the unit square of texture coordinates it stays below 1, so the outer
    colour is never reached in full. *)
Theorem background_blend (u v : R) :
  0 <= u <= 1 -> 0 <= v <= 1 ->
  0 <= blend (u, v) < 1 /\
  (forall vUv, 0 <= blend vUv <= 1) /\
  (forall vUv,
     distance (u, v) (0.5, 0.5) <= distance vUv (0.5, 0.5) ->
     blend (u, v) <= blend vUv).
Proof.
  intros Hu Hv.
  pose proof (distance_unit_square u v Hu Hv) as [Hd0 Hd1].
  split; [| split].
  - split; [apply blend_range |].
    unfold blend, smoothstep. cbv zeta.
    replace ((distance (u, v) (0.5, 0.5) - 0) / (1 - 0))
      with (distance (u, v) (0.5, 0.5)) by field.
    apply hermite_lt_1.
    unfold clamp, Rmin, Rmax.
    destruct (Rle_dec (distance (u, v) (0.5, 0.5)) 0);
      destruct (Rle_dec _ 1); lra.
  - exact blend_range.
  - intros vUv Hle. unfold blend. apply smoothstep01_le. exact Hle.
Qed.

Lemma background_blend_witness : 0 <= blend (0, 0) < 1.
Proof.
  apply (background_blend 0 0); lra.
Defined.

Lemma mix_between (x y a : R) :
  0 <= a <= 1 -> Rmin x y <= mix x y a <= Rmax x y.
Proof.
  intros Ha. unfold mix, Rmin, Rmax. destruct (Rle_dec x y); split; nra.
Qed.

Lemma blend_center : blend (0.5, 0.5) = 0.
Proof.
  unfold blend, smoothstep, distance. cbn [fst snd]. cbv zeta.
  replace ((0.5 - 0.5) * (0.5 - 0.5) + (0.5 - 0.5) * (0.5 - 0.5)) with 0
    by ring.
  rewrite sqrt_0.
  replace ((0 - 0) / (1 - 0)) with 0 by field.
  unfold clamp, Rmin, Rmax.
  destruct (Rle_dec 0 0); destruct (Rle_dec _ 1); lra.
Qed.

(** X16: every fragment of the background is opaque and each of its colour
    channels lies between the channel of the inner colour and that of the
    outer colour; the fragment at the centre has the inner colour. *)
Theorem background_colour (vUv : R * R) :
  let '(r, g, b, alpha) := fragColor vUv in
  0.529 <= r <= 0.827 /\
  0.808 <= g <= 0.827 /\
  0.827 <= b <= 0.922 /\
  alpha = 1 /\
  fragColor (0.5, 0.5) = (innerColor, 1).
Proof.
  unfold fragColor, mix3, innerColor, outerColor. cbn [fst snd].
  pose proof (blend_range vUv) as Hb.
  repeat split; try (unfold mix; nra).
  rewrite blend_center. unfold mix. repeat f_equal; lra.
Qed.

(** X17: on a non-empty array of bytes the audio level scales the background
    by a factor between 1 and 1.5. *)
Theorem background_scale_range (arr : list Z) :
  arr <> [] -> Frames.bytes arr ->
  exists level,
    Audio.updateAudioData arr = Some level /\ 1 <= scale level <= 1.5.
Proof.
  intros Hne Hb.
  destruct (AudioExtra.level_range arr Hne Hb) as (level & Hl & Hr).
  exists level. split; [exact Hl |]. unfold scale. lra.
Qed.

Lemma background_scale_range_witness :
  exists level,
    Audio.updateAudioData [255%Z] = Some level /\ 1 <= scale level <= 1.5.
Proof.
  apply (background_scale_range [255%Z]).
  - discriminate.
  - repeat constructor; lia.
Defined.

End BackgroundFacts.

(** ** The fold as a map into one wedge *)

Module ShaderExtra.
Import Shader ShaderFacts.

Lemma foldAngle_range (PI_literal segments theta : R) :
  0 < 2 * PI_literal / segments ->
  0 <= foldAngle PI_literal segments theta <= 2 * PI_literal / segments.
Proof.
  intros Hs. rewrite foldAngle_R. cbv zeta.
  assert (Hp : 0 < 2 * PI_literal / segments * 2) by lra.
  pose proof (mod_range theta _ Hp) as [Hw0 Hwp].
  destruct (Rlt_dec _ _); lra.
Qed.

Lemma foldAngle_fixed (PI_literal segments theta : R) :
  0 < 2 * PI_literal / segments ->
  0 <= theta <= 2 * PI_literal / segments ->
  foldAngle PI_literal segments theta = theta.
Proof.
  intros Hs Ht. rewrite foldAngle_R. cbv zeta.
  rewrite (mod_unique theta (2 * PI_literal / segments * 2) theta 0);
    [| lra | simpl; lra | split; lra].
  destruct (Rlt_dec _ _); lra.
Qed.

Lemma uncorrect_correct (aspect : R) (uv : R * R) :
  0 < aspect -> uncorrect aspect (correct aspect uv) = uv.
Proof.
  intros Ha. destruct uv as [u v]. rewrite correct_R.
  destruct (Rlt_dec 1 aspect) as [H1 | H1]; rewrite uncorrect_R;
    destruct (Rlt_dec 1 aspect); try contradiction;
    f_equal; field; lra.
Qed.

(** The arctangent recovers an angle of (-PI, PI] from its point. *)
Lemma atan2_of_polar (w r : R) :
  0 < r -> - PI < w <= PI -> atan2 (sin w * r) (cos w * r) = w.
Proof.
  intros Hr Hw.
  destruct (atan2_polar (cos w * r) (sin w * r)) as [Hx Hy].
  cbv zeta in Hx, Hy.
  change (sqrt (cos w * r * (cos w * r) + sin w * r * (sin w * r)))
    with (Shader.length (cos w * r, sin w * r)) in Hx, Hy.
  rewrite length_polar in Hx, Hy by lra.
  set (theta := atan2 (sin w * r) (cos w * r)) in *.
  assert (Hc : cos theta = cos w).
  { apply (Rmult_eq_reg_l r); lra. }
  assert (Hs : sin theta = sin w).
  { apply (Rmult_eq_reg_l r); lra. }
  destruct (angle_unique _ _ Hc Hs) as [m Hm].
  pose proof (atan2_range (cos w * r) (sin w * r)) as Hrange.
  fold theta in Hrange.
  pose proof PI_RGT_0 as Hpi.
  assert (Hm0 : m = 0%Z).
  { assert (Hlo : (-1 < m)%Z).
    { apply lt_IZR. apply (Rmult_lt_reg_r (2 * PI)); lra. }
    assert (Hhi : (m < 1)%Z).
    { apply lt_IZR. apply (Rmult_lt_reg_r (2 * PI)); lra. }
    lia. }
  subst m. lra.
Qed.

Lemma mainUv_fixed_in_wedge (PI_literal segments aspect : R) (uv : R * R) :
  0 < aspect -> 0 < 2 * PI_literal / segments ->
  0 <= atan2 (snd (correct aspect uv)) (fst (correct aspect uv))
    <= 2 * PI_literal / segments ->
  mainUv PI_literal segments aspect uv = uv.
Proof.
  intros Ha Hs Hangle. rewrite mainUv_R. cbv zeta.
  rewrite foldAngle_fixed by assumption.
  transitivity (uncorrect aspect (correct aspect uv));
    [| apply uncorrect_correct; exact Ha].
  f_equal.
  destruct (correct aspect uv) as [x y]. cbn [fst snd] in *.
  destruct (atan2_polar x y) as [Hx Hy]. cbv zeta in Hx, Hy.
  rewrite length_R.
  f_equal; rewrite Rmult_comm; assumption.
Qed.

Lemma folded_angle_in_wedge (PI_literal segments aspect : R) (uv : R * R) :
  0 < aspect -> 0 < 2 * PI_literal / segments <= PI ->
  let out := correct aspect (mainUv PI_literal segments aspect uv) in
  0 <= atan2 (snd out) (fst out) <= 2 * PI_literal / segments.
Proof.
  intros Ha [Hs Hspi]. rewrite mainUv_R. cbv zeta.
  rewrite correct_uncorrect by exact Ha. cbn [fst snd].
  set (c := correct aspect uv).
  pose proof (foldAngle_range PI_literal segments
                (atan2 (snd c) (fst c)) Hs) as [Hw0 Hws].
  set (w := foldAngle PI_literal segments (atan2 (snd c) (fst c))) in *.
  destruct c as [x y].
  pose proof (length_nonneg x y) as Hr.
  destruct (Req_dec_T (Shader.length (x, y)) 0) as [Hz | Hnz].
  - rewrite Hz, !Rmult_0_r.
    assert (H00 : atan2 0 0 = 0).
    { unfold atan2.
      destruct (Rlt_dec 0 0) as [H | _]; [lra |].
      destruct (Rlt_dec 0 0) as [H | _]; [lra | reflexivity]. }
    rewrite H00. lra.
  - pose proof PI_RGT_0.
    rewrite atan2_of_polar by lra. lra.
Qed.

(** X18: for an aspect above zero and a wedge angle [2 * constant / segments]
    in (0, PI], the output of the fold, seen from the centre in
    aspect-equalized space, has its polar angle in the first wedge: between
    0 and the wedge angle. *)
Theorem fold_lands_in_first_wedge
  (PI_literal segments aspect : R) (uv : R * R) :
  0 < aspect -> 0 < 2 * PI_literal / segments <= PI ->
  let out := correct aspect (mainUv PI_literal segments aspect uv) in
  0 <= atan2 (snd out) (fst out) <= 2 * PI_literal / segments.
Proof. exact (folded_angle_in_wedge PI_literal segments aspect uv). Qed.

Lemma source_wedge : 0 < 2 * PI_source / 12 <= PI.
Proof. pose proof PI_gt_3. unfold PI_source. lra. Qed.

Lemma fold_lands_in_first_wedge_witness :
  let out := correct 1.5 (mainUv PI_source 12 1.5 (0.2, 0.9)) in
  0 <= atan2 (snd out) (fst out) <= 2 * PI_source / 12.
Proof.
  apply (fold_lands_in_first_wedge PI_source 12 1.5 (0.2, 0.9)).
  - lra.
  - exact source_wedge.
Defined.

(** X19: a coordinate whose polar angle (in aspect-equalized space) already
    lies in the first wedge is left where it is. *)
Theorem fold_fixes_first_wedge
  (PI_literal segments aspect : R) (uv : R * R) :
  0 < aspect -> 0 < 2 * PI_literal / segments ->
  0 <= atan2 (snd (correct aspect uv)) (fst (correct aspect uv))
    <= 2 * PI_literal / segments ->
  mainUv PI_literal segments aspect uv = uv.
Proof. exact (mainUv_fixed_in_wedge PI_literal segments aspect uv). Qed.

Lemma fold_fixes_first_wedge_witness :
  mainUv PI_source 12 1 (0.75, 0.5) = (0.75, 0.5).
Proof.
  apply (fold_fixes_first_wedge PI_source 12 1 (0.75, 0.5)).
  - lra.
  - apply source_wedge.
  - rewrite correct_R. destruct (Rlt_dec 1 1) as [H | _]; [lra |].
    cbn [fst snd]. replace ((0.5 - 0.5) / 1) with (0.5 - 0.5) by lra.
    rewrite atan2_east. pose proof source_wedge. lra.
Defined.

(** X20: folding twice is folding once, for an aspect above zero and a wedge
    angle in (0, PI]. *)
Theorem fold_idempotent (PI_literal segments aspect : R) (uv : R * R) :
  0 < aspect -> 0 < 2 * PI_literal / segments <= PI ->
  mainUv PI_literal segments aspect
    (mainUv PI_literal segments aspect uv)
  = mainUv PI_literal segments aspect uv.
Proof.
  intros Ha Hs. apply mainUv_fixed_in_wedge; [exact Ha | lra |].
  apply folded_angle_in_wedge; assumption.
Qed.

Lemma fold_idempotent_witness :
  mainUv PI_source 12 1.5 (mainUv PI_source 12 1.5 (0.2, 0.9))
  = mainUv PI_source 12 1.5 (0.2, 0.9).
Proof.
  apply (fold_idempotent PI_source 12 1.5 (0.2, 0.9)).
  - lra.
  - exact source_wedge.
Defined.

(** *** The horizontal axis is a mirror line *)

Lemma atan2_opp (x y : R) :
  atan2 (- y) x = - atan2 y x \/ (atan2 (- y) x = PI /\ atan2 y x = PI).
Proof.
  unfold atan2.
  destruct (Rlt_dec 0 x) as [Hpos | Hnpos].
  - left. replace (- y / x) with (- (y / x)) by (field; lra).
    apply atan_opp.
  - destruct (Rlt_dec x 0) as [Hneg | Hnneg].
    + replace (- y / x) with (- (y / x)) by (field; lra).
      rewrite atan_opp.
      destruct (Rle_dec 0 (- y)) as [Hy1 | Hy1];
        destruct (Rle_dec 0 y) as [Hy2 | Hy2].
      * right. assert (y = 0) by lra. subst y.
        replace (0 / x) with 0 by (field; lra).
        rewrite atan_0. split; ring.
      * left. ring.
      * left. ring.
      * lra.
    + destruct (Rlt_dec 0 (- y)); destruct (Rlt_dec 0 y);
        destruct (Rlt_dec (- y) 0); destruct (Rlt_dec y 0);
        try lra; left; ring.
Qed.

Lemma foldAngle_opp (PI_literal segments x y : R) :
  0 < 2 * PI_literal / segments ->
  foldAngle PI_literal segments (atan2 (- y) x)
  = foldAngle PI_literal segments (atan2 y x).
Proof.
  intros Hs. destruct (atan2_opp x y) as [Ho | [H1 H2]].
  - rewrite Ho.
    rewrite <- (foldAngle_mirror PI_literal segments (atan2 y x) 0 Hs).
    f_equal. simpl. ring.
  - rewrite H1, H2. reflexivity.
Qed.

(** X21: for an aspect above zero and a positive wedge angle, whatever the
    value of the constant, a coordinate and its mirror image across the
    horizontal line through the centre fold to the same output: the folded
    image is symmetric top to bottom. *)
Theorem fold_mirror_horizontal
  (PI_literal segments aspect u v : R) :
  0 < aspect -> 0 < 2 * PI_literal / segments ->
  mainUv PI_literal segments aspect (u, 1 - v)
  = mainUv PI_literal segments aspect (u, v).
Proof.
  intros Ha Hs. rewrite !mainUv_R. cbv zeta.
  assert (Hc : correct aspect (u, 1 - v)
               = (fst (correct aspect (u, v)),
                  - snd (correct aspect (u, v)))).
  { rewrite !correct_R.
    replace (1 - v - 0.5) with (- (v - 0.5)) by lra.
    destruct (Rlt_dec 1 aspect); cbn [fst snd]; f_equal; field; lra. }
  rewrite Hc. destruct (correct aspect (u, v)) as [x y]. cbn [fst snd].
  rewrite foldAngle_opp by exact Hs.
  rewrite !length_R.
  replace (x * x + - y * - y) with (x * x + y * y) by ring.
  reflexivity.
Qed.

Lemma fold_mirror_horizontal_witness :
  mainUv PI_source 12 1.5 (0.2, 1 - 0.9) = mainUv PI_source 12 1.5 (0.2, 0.9).
Proof.
  apply (fold_mirror_horizontal PI_source 12 1.5 0.2 0.9).
  - lra.
  - apply source_wedge.
Defined.

End ShaderExtra.

(** ** The fold on a viewport with an area *)

Module ViewportExtra.
Import Shader Num ViewportFacts.

(** X22: on a canvas of positive width and height, with a constant and a
    segment count other than zero, the fold of a finite coordinate is the
    fold over the reals at the aspect [width / height]: both outputs are
    finite, no infinity or NaN arises. *)
Theorem render_finite (PI_literal segments : R) (width height : N) (u v : R) :
  PI_literal <> 0 -> segments <> 0 ->
  (0 < width)%N -> (0 < height)%N ->
  render PI_literal segments width height (Fin u, Fin v)
  = inj (mainUv PI_literal segments
           (IZR (Z.of_N width) / IZR (Z.of_N height)) (u, v)).
Proof.
  intros Hpi Hseg Hw Hh. unfold render.
  rewrite update_nonzero_height by exact Hh.
  apply mainUv_fin; [exact Hpi | exact Hseg |].
  assert (0 < IZR (Z.of_N width)) by (apply IZR_lt; lia).
  assert (0 < IZR (Z.of_N height)) by (apply IZR_lt; lia).
  apply Rgt_not_eq. apply Rdiv_lt_0_compat; assumption.
Qed.

Lemma render_finite_witness :
  render PI_source 12 800 600 (Fin 0.2, Fin 0.9)
  = inj (mainUv PI_source 12
           (IZR (Z.of_N 800) / IZR (Z.of_N 600)) (0.2, 0.9)).
Proof.
  apply (render_finite PI_source 12 800 600 0.2 0.9).
  - exact PI_neq0.
  - lra.
  - reflexivity.
  - reflexivity.
Defined.

End ViewportExtra.

(** ** The life of the analyzer hook *)

Module AnalyzerFacts.
Import Analyzer.

Lemma step_linked (h : Hook) (e : Event) : linked h -> linked (step h e).
Proof.
  intros Hl. destruct e as [bins | | bins |]; simpl.
  - destruct (settled h); [exact Hl | right; reflexivity].
  - destruct (settled h); [exact Hl | exact Hl].
  - destruct (requested h) eqn:Hr; [right; reflexivity | left; exact Hr].
  - unfold linked, cleanup. simpl. left.
    destruct Hl as [Hn | He].
    + rewrite Hn. destruct (animationIdRef h); reflexivity.
    + rewrite He. destruct (animationIdRef h) as [id |]; [| reflexivity].
      simpl. rewrite Pos.eqb_refl. reflexivity.
Qed.

Lemma run_linked (es : list Event) (h : Hook) :
  linked h -> linked (run es h).
Proof.
  revert h. induction es as [| e es IH]; intros h Hl; simpl.
  - exact Hl.
  - apply IH. apply step_linked. exact Hl.
Qed.

Lemma mount_linked : linked mount.
Proof. left. reflexivity. Qed.

Lemma cleanup_unrequests (h : Hook) :
  linked h -> requested (cleanup h) = None.
Proof.
  intros [Hn | He]; unfold cleanup; simpl.
  - rewrite Hn. destruct (animationIdRef h); reflexivity.
  - rewrite He. destruct (animationIdRef h) as [id |]; [| reflexivity].
    simpl. rewrite Pos.eqb_refl. reflexivity.
Qed.

Lemma step_torn (h : Hook) (e : Event) :
  torn h ->
  torn (step h e) /\
  audioData (step h e) = audioData h /\
  audioLevel (step h e) = audioLevel h /\
  streamLive (step h e) = streamLive h.
Proof.
  intros (Hs & Hr & Hc). destruct e as [bins | | bins |]; simpl.
  - rewrite Hs. repeat split; assumption.
  - rewrite Hs. repeat split; assumption.
  - rewrite Hr. repeat split; assumption.
  - unfold torn, cleanup. simpl. rewrite Hr.
    repeat split; try assumption.
    + destruct (animationIdRef h); reflexivity.
    + destruct (audioContextRef h); discriminate.
Qed.

Lemma run_torn (es : list Event) (h : Hook) :
  torn h ->
  torn (run es h) /\
  audioData (run es h) = audioData h /\
  audioLevel (run es h) = audioLevel h /\
  streamLive (run es h) = streamLive h.
Proof.
  revert h. induction es as [| e es IH]; intros h Ht; simpl.
  - repeat split; try reflexivity; apply Ht.
  - destruct (step_torn h e Ht) as (Ht' & Hd & Hl & Hm).
    destruct (IH _ Ht') as (Ht'' & Hd' & Hl' & Hm').
    rewrite Hd', Hl', Hm'. repeat split; try assumption; apply Ht''.
Qed.

(** X23: once the microphone request has settled, the cleanup stops the
    hook for good: whatever events follow (frames, late resolutions, further
    cleanups), no frame callback is held, the audio context is not running,
    and the published spectrum and level never change again.  The stream
    itself is left as it was. *)
Theorem cleanup_after_settling_is_final (before after : list Event) :
  let h := run before mount in
  let h' := run (Cleanup :: after) h in
  settled h = true ->
  requested h' = None /\
  audioContextRef h' <> Some Running /\
  audioData h' = audioData h /\
  audioLevel h' = audioLevel h /\
  streamLive h' = streamLive h.
Proof.
  intros h h' Hs.
  assert (Ht : torn (cleanup h)).
  { unfold torn. split; [exact Hs |]. split.
    - apply cleanup_unrequests. apply run_linked, mount_linked.
    - unfold cleanup. simpl. destruct (audioContextRef h); discriminate. }
  destruct (run_torn after (cleanup h) Ht) as ((_ & Hr & Hc) & Hd & Hl & Hm).
  unfold h'. simpl. repeat split; assumption.
Qed.

Lemma cleanup_after_settling_is_final_witness :
  let h := run [Granted [10%Z; 20%Z]; AnimationFrame [30%Z; 40%Z]] mount in
  let h' := run [Cleanup; AnimationFrame [50%Z; 60%Z]] h in
  requested h' = None /\
  audioContextRef h' <> Some Running /\
  audioData h' = audioData h /\
  audioLevel h' = audioLevel h /\
  streamLive h' = streamLive h.
Proof.
  apply (cleanup_after_settling_is_final
           [Granted [10%Z; 20%Z]; AnimationFrame [30%Z; 40%Z]]
           [AnimationFrame [50%Z; 60%Z]]).
  reflexivity.
Defined.

(** X24: a denied microphone request leaves the hook as at mount for good:
    an empty spectrum, level 0, no audio context, no stream, no frame
    callback, whatever events follow. *)
Theorem denied_stays_silent (after : list Event) :
  let h := run (Denied :: after) mount in
  audioData h = [] /\
  audioLevel h = Some 0 /\
  audioContextRef h = None /\
  requested h = None /\
  streamLive h = false.
Proof.
  intros h.
  assert (Ht : torn (denied mount)).
  { unfold torn. simpl. repeat split; discriminate. }
  destruct (run_torn after (denied mount) Ht) as ((_ & Hr & _) & Hd & Hl & Hm).
  assert (Hc : audioContextRef (run after (denied mount)) = None).
  { clear Hr Hd Hl Hm.
    assert (Hn : audioContextRef (denied mount) = None) by reflexivity.
    revert Ht Hn. generalize (denied mount) as g.
    induction after as [| e es IH]; intros g Ht Hn; simpl.
    - exact Hn.
    - destruct (step_torn g e Ht) as (Ht' & _).
      apply IH; [exact Ht' |].
      destruct Ht as (Hs & Hr & _).
      destruct e as [bins | | bins |]; simpl.
      + rewrite Hs. exact Hn.
      + rewrite Hs. exact Hn.
      + rewrite Hr. exact Hn.
      + rewrite Hn. reflexivity. }
  unfold h. simpl. repeat split; assumption.
Qed.

Lemma last_cons_default (A : Type) (l : list A) (a d : A) :
  last l a = last (a :: l) d.
Proof.
  revert a d. induction l as [| b l IH]; intros a d.
  - reflexivity.
  - change (last (a :: b :: l) d) with (last (b :: l) d).
    rewrite <- (IH b d), <- (IH b a). reflexivity.
Qed.

Lemma frames_polling (frames : list (list Z)) (h : Hook) :
  polling h ->
  polling (run (map AnimationFrame frames) h) /\
  audioData (run (map AnimationFrame frames) h)
  = last frames (audioData h).
Proof.
  revert h. induction frames as [| bins frames IH]; intros h Hp; simpl.
  - split; [exact Hp | reflexivity].
  - destruct Hp as (Ha & Hc & Hm & Hr).
    destruct (requested h) as [id |] eqn:Hreq; [| contradiction Hr; reflexivity].
    set (h1 := updateAudioData bins _).
    assert (Hp1 : polling h1).
    { unfold polling, h1, updateAudioData. simpl.
      repeat split; try assumption. discriminate. }
    destruct (IH h1 Hp1) as [Hp' Hd'].
    split; [exact Hp' |]. rewrite Hd'.
    assert (Hd1 : audioData h1 = bins).
    { unfold h1, updateAudioData. simpl. rewrite Ha. reflexivity. }
    rewrite Hd1. exact (last_cons_default _ frames bins (audioData h)).
Qed.

(** X25: a cleanup that runs before the microphone request is granted stops
    nothing: once the request is granted, and through every animation frame
    that follows, the browser holds a frame callback of the hook, the audio
    context runs and the stream is live. *)
Theorem cleanup_before_grant_does_not_stop
  (bins : list Z) (frames : list (list Z)) :
  let h := run (Cleanup :: Granted bins :: map AnimationFrame frames) mount in
  requested h <> None /\
  audioContextRef h = Some Running /\
  streamLive h = true.
Proof.
  intros h.
  assert (Hp : polling (granted bins (cleanup mount))).
  { unfold polling. simpl. repeat split. discriminate. }
  destruct (frames_polling frames _ Hp) as [(_ & Hc & Hm & Hr) _].
  unfold h. simpl. repeat split; assumption.
Qed.

End AnalyzerFacts.
